(** * RPG-JS: the tile map model ([RpgCommonMap]) and the GUI session ([Gui])

    A shallow embedding of [RpgCommonMap] (tile indexing, z-aware tile
    lookup, the shape registry) and of [Gui] (open/close with a pending
    promise), with the properties of the specification stated over it.

    Conventions of the embedding:
    - a JavaScript [number] holding a pixel coordinate, a tile size, a tile
      index or a z depth is an integer of [Z]; [Math.floor (a / b)] is then
      the floor division [a / b] of [Z] (for [b <> 0]); the integers agree
      with the doubles of the code while every value stays a safe integer
      ([MAX_SAFE_INTEGER]), as on the positions inside a map of safe size
      ([safeMap]);
    - an optional field or an [undefined] value is an [option];
    - [array[i]] is [array_get], which is [None] ([undefined]) out of range;
    - objects mutated in place through a reference live in a store
      ([gmap loc _]) and are passed as locations. *)

From stdpp Require Import gmap strings list.
From Stdlib Require Import ZArith Lia.

Local Open Scope Z_scope.

(** ** JavaScript values and arrays *)

(** Opaque property values carried through untouched. *)
Inductive value : Type :=
| VUndefined
| VBool (b : bool)
| VNum (n : Z)
| VStr (s : string).

(** [a[i]]: [undefined] for a negative index or one past the end. *)
Definition array_get {A : Type} (a : list A) (i : Z) : option A :=
  if i <? 0 then None else a !! Z.to_nat i.

(** [a[a.length - 1]]. *)
Definition array_last {A : Type} (a : list A) : option A :=
  array_get a (Z.of_nat (length a) - 1).

(** ** The map document *)

Definition loc := nat.

(** The open [properties] mapping of a shape or raw object: the key [z] is a
    number ("(number) z: Position Z"), every other key is opaque. *)
Record Props : Type := mkProps {
  p_z : option Z;
  p_other : gmap string value
}.

Definition emptyProps : Props := {| p_z := None; p_other := ∅ |}.

(** [HitObject]: a raw shape definition of an object layer. *)
Record HitObject : Type := mkHitObject {
  ho_x : Z;
  ho_y : Z;
  ho_width : Z;
  ho_height : Z;
  ho_name : option string;
  ho_properties : option Props
}.

(** [properties] of a tile cell. *)
Record TileProps : Type := mkTileProps {
  collision : option bool;
  overlay : option bool;
  climb : option bool;
  tp_z : option Z
}.

(** A cell of a tile layer. *)
Record Tile : Type := mkTile {
  t_properties : TileProps;
  t_objectGroups : list HitObject
}.

(** A layer of the document; [l_tiles] is read when [l_type] is ["tile"],
    [l_objects] (references to the raw objects) when it is ["object"]. *)
Record Layer : Type := mkLayer {
  l_type : string;
  l_z : option Z;                    (* layer.properties.z *)
  l_tiles : list (option Tile);      (* layer.tiles, with holes *)
  l_objects : list loc               (* layer.objects *)
}.

(** The parsed map document given to [load]. *)
Record MapData : Type := mkMapData {
  d_width : Z;
  d_height : Z;
  d_tileWidth : Z;
  d_tileHeight : Z;
  d_layers : list Layer
}.

(** ** Shapes *)

Record Hitbox : Type := mkHitbox {
  hb_x : Z;
  hb_y : Z;
  hb_width : Z;
  hb_height : Z
}.

(** Modelled from the spec: [RpgShape] (./Shape is not part of the sources).
    "Shape record: { name: string, hitbox: {x,y,width,height},
    properties: {...} }", the hitbox being "derived from x, y, width,
    height". [sh_id] is the identity of the shape object: the number of its
    allocation, so that an entry and a copy of it can be told apart. *)
Record RpgShape : Type := mkShape {
  sh_id : nat;
  sh_name : string;
  hitbox : Hitbox;
  properties : Props
}.

(** ** RpgCommonMap *)

Record RpgCommonMap : Type := mkMap {
  data : option MapData;
  width : Z;
  height : Z;
  tileWidth : Z;
  tileHeight : Z;
  layers : list Layer;
  shapes : list RpgShape
}.

(** A freshly constructed instance (the field initialisers of the class). *)
Definition newMap : RpgCommonMap :=
  {| data := None; width := 0; height := 0; tileWidth := 0; tileHeight := 0;
     layers := []; shapes := [] |}.

Definition widthPx (this : RpgCommonMap) : Z := width this * tileWidth this.
Definition heightPx (this : RpgCommonMap) : Z := height this * tileHeight this.
Definition zTileHeight (this : RpgCommonMap) : Z := tileHeight this.

(** ** Tile indexing *)

(** [getTileIndex(x, y, [z] = [0])]; [zs = None] is the omitted argument. *)
Definition getTileIndex (this : RpgCommonMap) (x y : Z) (zs : option Z) : Z :=
  let z := default 0 zs in
  width this * ((y - z) / tileHeight this) + x / tileWidth this.

Record Point : Type := mkPoint { pt_x : Z; pt_y : Z }.

Definition getTileOriginPosition (this : RpgCommonMap) (x y : Z) : Point :=
  {| pt_x := x / tileWidth this * tileWidth this;
     pt_y := y / tileHeight this * tileHeight this |}.

(** ** Tile lookup *)

Record TileInfo : Type := mkTileInfo {
  tiles : list Tile;
  hasCollision : option bool;
  isClimbable : option bool;
  isOverlay : option bool;
  objectGroups : list HitObject
}.

Section TileLookup.

(** [intersection] of ./Utils is not part of the sources: the lookup is
    defined, and its general properties proved, for any such test. *)
Variable intersection : Z * Z → Z * Z → bool.

(** One iteration of [for (let layer of this.layers)], [tiles] being the
    array built so far; the result is the array after the iteration. *)
Definition lookupLayer (this : RpgCommonMap) (tileIndex : Z) (zPlayer : Z * Z)
    (tiles : list Tile) (layer : Layer) : list Tile :=
  if negb (String.eqb (l_type layer) "tile") then tiles
  else
    match mjoin (array_get (l_tiles layer) tileIndex) with
    | None => tiles
    | Some _tiles =>
        let zLayer := l_z layer in
        let zTile := tp_z (t_properties _tiles) in
        let z :=
          match zLayer with
          | Some zl => Some (zl + match zTile with Some zt => zt | None => 0 end)
          | None => match zTile with Some zt => Some zt | None => None end
          end in
        let zIntersection :=
          match z with
          | Some z =>
              let realZ := z * tileHeight this in
              Some (intersection zPlayer (realZ, realZ + tileHeight this))
          | None => None
          end in
        match zIntersection with
        | Some b => if b then tiles ++ [_tiles] else tiles
        | None => tiles ++ [_tiles]
        end
    end.

(** [getTileByIndex(tileIndex, zPlayer = [0, 0])]. *)
Definition getTileByIndex (this : RpgCommonMap) (tileIndex : Z)
    (zPlayer : Z * Z) : TileInfo :=
  let tiles := fold_left (lookupLayer this tileIndex zPlayer) (layers this) [] in
  match array_last tiles with
  | None =>
      {| tiles := tiles; hasCollision := Some true; isClimbable := None;
         isOverlay := Some false; objectGroups := [] |}
  | Some getLastTile =>
      {| tiles := tiles;
         hasCollision := collision (t_properties getLastTile);
         isClimbable := climb (t_properties getLastTile);
         isOverlay := overlay (t_properties getLastTile);
         objectGroups := t_objectGroups getLastTile |}
  end.

(** [getTileByPosition(x, y, z = [0, 0])]. *)
Definition getTileByPosition (this : RpgCommonMap) (x y : Z) (z : Z * Z) : TileInfo :=
  let tileIndex := getTileIndex this x y (Some (fst z)) in
  getTileByIndex this tileIndex z.

(** *** The lookup as the specification words it *)

(** The cells of the tile layers present at [tileIndex], in layer order,
    each with its layer. *)
Definition cellsAt (this : RpgCommonMap) (tileIndex : Z) : list (Layer * Tile) :=
  omap (λ layer,
          if String.eqb (l_type layer) "tile"
          then (λ c, (layer, c)) <$> mjoin (array_get (l_tiles layer) tileIndex)
          else None)
       (layers this).

(** "if the layer declares a z property, the depth is layerZ + (tileZ if
    present else 0); else if the tile itself declares z, depth is tileZ;
    else depth is undefined". *)
Definition depth (lc : Layer * Tile) : option Z :=
  match l_z (fst lc), tp_z (t_properties (snd lc)) with
  | Some zl, Some zt => Some (zl + zt)
  | Some zl, None => Some (zl + 0)
  | None, Some zt => Some zt
  | None, None => None
  end.

(** "A cell is included only if it overlaps (or if depth was undefined, it
    is unconditionally included)". *)
Definition included (this : RpgCommonMap) (zRange : Z * Z) (lc : Layer * Tile) : bool :=
  match depth lc with
  | None => true
  | Some d => intersection zRange (d * tileHeight this, d * tileHeight this + tileHeight this)
  end.

Definition includedCells (this : RpgCommonMap) (tileIndex : Z) (zRange : Z * Z)
    : list (Layer * Tile) :=
  List.filter (included this zRange) (cellsAt this tileIndex).

End TileLookup.

(** Modelled from the spec: [intersection] of ./Utils, the "test for overlap"
    of the closed interval "[depth*tileHeight, depth*tileHeight +
    tileHeight]" "against the query's zRange": two closed intervals overlap
    when they share a point. *)
Definition intersection (a b : Z * Z) : bool :=
  (fst a <=? snd b) && (fst b <=? snd a).

(** ** JavaScript arithmetic of [properties.z * zTileHeight || 0] *)

Inductive number : Type :=
| NaN
| Num (n : Z).

(** [ToNumber]: [undefined] converts to [NaN]. *)
Definition toNumber (v : option Z) : number :=
  match v with
  | Some n => Num n
  | None => NaN
  end.

Definition times (a b : number) : number :=
  match a, b with
  | Num x, Num y => Num (x * y)
  | _, _ => NaN
  end.

(** [a || d]: [NaN] and [0] are falsy. *)
Definition orElse (a : number) (d : Z) : Z :=
  match a with
  | Num n => if n =? 0 then d else n
  | NaN => d
  end.

(** ** The shape registry: operations that only read or replace [shapes] *)

(** [removeShape(name)]; the result is the instance afterwards. *)
Definition removeShape (this : RpgCommonMap) (name : string) : RpgCommonMap :=
  {| data := data this; width := width this; height := height this;
     tileWidth := tileWidth this; tileHeight := tileHeight this;
     layers := layers this;
     shapes := List.filter (λ shape, negb (String.eqb (sh_name shape) name)) (shapes this) |}.

Definition getShapes (this : RpgCommonMap) : list RpgShape := shapes this.

(** [getShape(name)]; [None] is [undefined]. *)
Definition getShape (this : RpgCommonMap) (name : string) : option RpgShape :=
  List.find (λ shape, String.eqb (sh_name shape) name) (shapes this).

Record Position : Type := mkPosition { pos_x : Z; pos_y : Z; pos_z : Z }.

(** Modelled from the spec: [random(min, max)] of ./Utils, which "selects
    uniformly at random": the integers from [min] to [max], each as likely
    as the others. *)
Definition random_outcomes (min max : Z) : list Z := seqZ min (max - min + 1).

Section PositionByShape.

(** The draw that the call of [random] makes. *)
Variable random : Z → Z → Z.

(** [getPositionByShape(filter)]. The outer [None] is the [TypeError] of
    reading [start.hitbox] when [start] is [undefined]; [Some None] is the
    returned [null]. *)
Definition getPositionByShape (this : RpgCommonMap) (filter : RpgShape → bool)
    : option (option Position) :=
  let startsFind := List.filter filter (getShapes this) in
  if negb (Z.of_nat (length startsFind) =? 0) then
    match array_get startsFind (random 0 (Z.of_nat (length startsFind) - 1)) with
    | Some start =>
        Some (Some {| pos_x := hb_x (hitbox start);
                      pos_y := hb_y (hitbox start);
                      pos_z := orElse (times (toNumber (p_z (properties start)))
                                             (Num (zTileHeight this))) 0 |})
    | None => None
    end
  else Some None.

End PositionByShape.

(** The position that [getPositionByShape] reports for a shape. *)
Definition positionOf (this : RpgCommonMap) (start : RpgShape) : Position :=
  {| pos_x := hb_x (hitbox start);
     pos_y := hb_y (hitbox start);
     pos_z := match p_z (properties start) with
              | Some z => z * zTileHeight this
              | None => 0
              end |}.

(** ** The store, and the operations that write through references *)

Record World : Type := mkWorld {
  this : RpgCommonMap;          (* the instance *)
  heap : gmap loc HitObject;    (* the raw objects, by reference *)
  nextShape : nat;              (* RpgShape objects allocated so far *)
  uidCalls : nat                (* calls of generateUID so far *)
}.

(** A computation on the world; [None] is a [TypeError] (a property read
    from [undefined]) or a dangling reference. *)
Definition M (A : Type) : Type := World → option (A * World).

Definition ret {A : Type} (a : A) : M A := λ w, Some (a, w).

Definition bind {A B : Type} (m : M A) (k : A → M B) : M B :=
  λ w, match m w with
       | Some (a, w') => k a w'
       | None => None
       end.

Definition throw {A : Type} : M A := λ _, None.

Notation "'do' x <- m ; k" := (bind m (λ x, k))
  (at level 10, x name, m at level 100, k at level 200).
Notation "m ;; k" := (bind m (λ _, k))
  (at level 100, k at level 200, right associativity).

Definition getThis : M RpgCommonMap := λ w, Some (this w, w).

Definition setThis (t : RpgCommonMap) : M unit :=
  λ w, Some (tt, {| this := t; heap := heap w; nextShape := nextShape w;
                    uidCalls := uidCalls w |}).

Definition readObj (obj : loc) : M HitObject :=
  λ w, match heap w !! obj with
       | Some o => Some (o, w)
       | None => None
       end.

Definition writeObj (obj : loc) (o : HitObject) : M unit :=
  λ w, Some (tt, {| this := this w; heap := <[obj := o]> (heap w);
                    nextShape := nextShape w; uidCalls := uidCalls w |}).

Definition setName (o : HitObject) (name : string) : HitObject :=
  {| ho_x := ho_x o; ho_y := ho_y o; ho_width := ho_width o;
     ho_height := ho_height o; ho_name := Some name;
     ho_properties := ho_properties o |}.

Definition setProperties (o : HitObject) (p : Props) : HitObject :=
  {| ho_x := ho_x o; ho_y := ho_y o; ho_width := ho_width o;
     ho_height := ho_height o; ho_name := ho_name o;
     ho_properties := Some p |}.

Definition pushShape (this : RpgCommonMap) (shape : RpgShape) : RpgCommonMap :=
  {| data := data this; width := width this; height := height this;
     tileWidth := tileWidth this; tileHeight := tileHeight this;
     layers := layers this; shapes := shapes this ++ [shape] |}.

(** A name is truthy when it is a non-empty string. *)
Definition truthyName (n : option string) : option string :=
  match n with
  | Some s => if String.eqb s "" then None else Some s
  | None => None
  end.

(** [mapM_]: a [for ... of] loop over an array. *)
Fixpoint forOf {A : Type} (l : list A) (body : A → M unit) : M unit :=
  match l with
  | [] => ret tt
  | a :: l => body a ;; forOf l body
  end.

Section Registry.

(** Modelled from the spec: [generateUID] of ./Utils, which "generates a
    unique identifier": [generateUID k] is the string that call number [k]
    returns. That two calls return different strings is a hypothesis of the
    theorems that need it. *)
Variable generateUID : nat → string.

Definition callGenerateUID : M string :=
  λ w, Some (generateUID (uidCalls w),
             {| this := this w; heap := heap w; nextShape := nextShape w;
                uidCalls := S (uidCalls w) |}).

(** Modelled from the spec: the constructor of [RpgShape], which reads the
    name, the rectangle and the properties of the raw object. *)
Definition newRpgShape (obj : loc) : M RpgShape :=
  λ w, match heap w !! obj with
       | Some {| ho_x := x; ho_y := y; ho_width := wd; ho_height := ht;
                 ho_name := Some name; ho_properties := Some props |} =>
           Some ({| sh_id := nextShape w; sh_name := name;
                    hitbox := {| hb_x := x; hb_y := y; hb_width := wd; hb_height := ht |};
                    properties := props |},
                 {| this := this w; heap := heap w; nextShape := S (nextShape w);
                    uidCalls := uidCalls w |})
       | _ => None
       end.

(** [createShape(obj)]. *)
Definition createShape (obj : loc) : M RpgShape :=
  do o <- readObj obj;
  do name <- match truthyName (ho_name o) with
             | Some s => ret s
             | None => callGenerateUID
             end;
  writeObj obj (setName o name);;
  do o <- readObj obj;
  writeObj obj (setProperties o (default emptyProps (ho_properties o)));;
  do shape <- newRpgShape obj;
  do t <- getThis;
  setThis (pushShape t shape);;
  do t <- getThis;
  match array_last (shapes t) with
  | Some s => ret s
  | None => throw
  end.

(** [_extractShapes()]. *)
Definition _extractShapes : M unit :=
  do t <- getThis;
  forOf (layers t) (λ layer,
    if negb (String.eqb (l_type layer) "object") then ret tt
    else forOf (l_objects layer) (λ obj, createShape obj ;; ret tt)).

(** [load(data)]. *)
Definition load (d : MapData) : M unit :=
  do t <- getThis;
  setThis {| data := Some d; width := d_width d; height := d_height d;
             tileWidth := d_tileWidth d; tileHeight := d_tileHeight d;
             layers := d_layers d; shapes := shapes t |};;
  _extractShapes.

End Registry.

(** ** Gui *)

Module Gui.

(** A promise is pending or fulfilled; it is never rejected here. *)
Inductive promiseState : Type :=
| Pending
| Fulfilled (v : value).

(** The function held by [_close]: the initial [() => {}], or the
    [resolve] function of the promise numbered [p]. *)
Inductive closeFn : Type :=
| Nothing
| Resolve (p : nat).

Inductive payload : Type :=
| OpenPayload (guiId : string) (data : value)   (* { guiId, data } *)
| ExitPayload (guiId : string).

(** What the instance does to its surroundings, in program order. *)
Inductive effect : Type :=
| Emit (event : string) (pl : payload)     (* this.player.emit(event, pl) *)
| Called (f : closeFn) (arg : value).      (* a call f(arg) of a resolver *)

(** The instance ([id], [_close], [_blockPlayerInput]), the [canMove] flag
    of its player, the promises created so far (a promise is named by its
    position) and the trace of effects. *)
Record State : Type := mkState {
  id : string;
  _close : closeFn;
  _blockPlayerInput : bool;
  canMove : Z;
  promises : list promiseState;
  trace : list effect
}.

(** [new Gui(id, player)]. *)
Definition new (guiId : string) (playerCanMove : Z) : State :=
  {| id := guiId; _close := Nothing; _blockPlayerInput := false;
     canMove := playerCanMove; promises := []; trace := [] |}.

Definition emit (event : string) (pl : payload) (s : State) : State :=
  {| id := id s; _close := _close s; _blockPlayerInput := _blockPlayerInput s;
     canMove := canMove s; promises := promises s;
     trace := trace s ++ [Emit event pl] |}.

Definition setClose (f : closeFn) (s : State) : State :=
  {| id := id s; _close := f; _blockPlayerInput := _blockPlayerInput s;
     canMove := canMove s; promises := promises s; trace := trace s |}.

Definition setBlockPlayerInput (b : bool) (s : State) : State :=
  {| id := id s; _close := _close s; _blockPlayerInput := b;
     canMove := canMove s; promises := promises s; trace := trace s |}.

Definition setCanMove (n : Z) (s : State) : State :=
  {| id := id s; _close := _close s; _blockPlayerInput := _blockPlayerInput s;
     canMove := n; promises := promises s; trace := trace s |}.

(** The start of [new Promise(...)]: a fresh pending promise. *)
Definition newPromise (s : State) : nat * State :=
  (length (promises s),
   {| id := id s; _close := _close s; _blockPlayerInput := _blockPlayerInput s;
      canMove := canMove s; promises := promises s ++ [Pending];
      trace := trace s |}).

(** A resolve function fulfils its promise when it is pending, and does
    nothing when it is settled already. *)
Definition settle (p : nat) (v : value) (ps : list promiseState) : list promiseState :=
  match ps !! p with
  | Some Pending => <[p := Fulfilled v]> ps
  | _ => ps
  end.

(** The call [f(arg)]. *)
Definition call (f : closeFn) (arg : value) (s : State) : State :=
  {| id := id s; _close := _close s; _blockPlayerInput := _blockPlayerInput s;
     canMove := canMove s;
     promises := match f with
                 | Nothing => promises s
                 | Resolve p => settle p arg (promises s)
                 end;
     trace := trace s ++ [Called f arg] |}.

(** [open(data, { waitingAction = false, blockPlayerInput = false } = {})]:
    the promise returned and the state afterwards. The executor runs
    inside [new Promise], before [open] returns. *)
Definition open (data : value) (waitingAction blockPlayerInput : bool)
    (s : State) : nat * State :=
  let '(p, s) := newPromise s in
  let resolve := Resolve p in
  let s := emit "gui.open" (OpenPayload (id s) data) s in
  let s := setBlockPlayerInput blockPlayerInput s in
  let s := if blockPlayerInput then setCanMove 0 s else s in
  let s := if negb waitingAction then call resolve VUndefined s
           else setClose resolve s in
  (p, s).

(** [close(data)]. *)
Definition close (data : value) (s : State) : State :=
  let s := emit "gui.exit" (ExitPayload (id s)) s in
  let s := if _blockPlayerInput s then setCanMove 1 s else s in
  call (_close s) data s.

(** A use of the instance by its callers. *)
Inductive request : Type :=
| Open (data : value) (waitingAction blockPlayerInput : bool)
| Close (data : value).

Definition step (s : State) (r : request) : State :=
  match r with
  | Open data waitingAction blockPlayerInput =>
      snd (open data waitingAction blockPlayerInput s)
  | Close data => close data s
  end.

Definition run (rs : list request) (s : State) : State := fold_left step rs s.

Definition isOpen (r : request) : bool :=
  match r with
  | Open _ _ _ => true
  | Close _ => false
  end.

(** A pending promise whose resolver the instance does not hold. *)
Definition abandoned (q : nat) (s : State) : Prop :=
  promises s !! q = Some Pending ∧ _close s ≠ Resolve q.

End Gui.

(** ** Example data *)

(** The attributes that a tile query reports. *)
Definition attributes (r : TileInfo)
    : option bool * option bool * option bool * list HitObject :=
  (hasCollision r, isOverlay r, isClimbable r, objectGroups r).

(** The same attributes, read from a cell. *)
Definition cellAttributes (c : Tile)
    : option bool * option bool * option bool * list HitObject :=
  (collision (t_properties c), overlay (t_properties c), climb (t_properties c),
   t_objectGroups c).


(** [Number.MAX_SAFE_INTEGER]: up to it in magnitude, the doubles of the code
    hold integers exactly. *)
Definition MAX_SAFE_INTEGER : Z := 2 ^ 53 - 1.

(** A map small enough for the arithmetic of the code to be exact on the
    positions inside it: its pixel sizes and its number of cells are safe
    integers. *)
Definition safeMap (this : RpgCommonMap) : Prop :=
  widthPx this <= MAX_SAFE_INTEGER
  ∧ heightPx this <= MAX_SAFE_INTEGER
  ∧ width this * height this <= MAX_SAFE_INTEGER.

Definition groundCell : Tile :=
  {| t_properties := {| collision := Some true; overlay := Some false;
                        climb := None; tp_z := None |};
     t_objectGroups := [] |}.

Definition bridgeCell : Tile :=
  {| t_properties := {| collision := Some false; overlay := Some true;
                        climb := None; tp_z := None |};
     t_objectGroups := [] |}.

Definition groundLayer : Layer :=
  {| l_type := "tile"; l_z := Some 0; l_tiles := [Some groundCell]; l_objects := [] |}.

Definition bridgeLayer : Layer :=
  {| l_type := "tile"; l_z := Some 1; l_tiles := [Some bridgeCell]; l_objects := [] |}.

(** A one-tile map of 32 pixel tiles, with the given layers. *)
Definition oneTileMap (ls : list Layer) : RpgCommonMap :=
  {| data := None; width := 1; height := 1; tileWidth := 32; tileHeight := 32;
     layers := ls; shapes := [] |}.

(** The result of a lookup, from the cells that the loop keeps. *)
Definition tileInfoOf (cells : list Tile) : TileInfo :=
  match last cells with
  | None =>
      {| tiles := cells; hasCollision := Some true; isClimbable := None;
         isOverlay := Some false; objectGroups := [] |}
  | Some c =>
      {| tiles := cells;
         hasCollision := collision (t_properties c);
         isClimbable := climb (t_properties c);
         isOverlay := overlay (t_properties c);
         objectGroups := t_objectGroups c |}
  end.

(** ** What [createShape] and [load] are expected to leave behind *)

(** The name of the shape made from the raw object [o], when [calls] calls of
    [generateUID] have been made before. *)
Definition nameFor (generateUID : nat → string) (calls : nat) (o : HitObject) : string :=
  match truthyName (ho_name o) with
  | Some s => s
  | None => generateUID calls
  end.

Definition callsAfter (calls : nat) (o : HitObject) : nat :=
  match truthyName (ho_name o) with
  | Some _ => calls
  | None => S calls
  end.

(** The raw object after [createShape]: named, and with a properties
    mapping. *)
Definition createdObject (name : string) (o : HitObject) : HitObject :=
  {| ho_x := ho_x o; ho_y := ho_y o; ho_width := ho_width o;
     ho_height := ho_height o; ho_name := Some name;
     ho_properties := Some (default emptyProps (ho_properties o)) |}.

Definition createdShape (id : nat) (name : string) (o : HitObject) : RpgShape :=
  {| sh_id := id; sh_name := name;
     hitbox := {| hb_x := ho_x o; hb_y := ho_y o; hb_width := ho_width o;
                  hb_height := ho_height o |};
     properties := default emptyProps (ho_properties o) |}.

(** The shapes made from the raw objects [os], one after the other. *)
Fixpoint createdShapes (generateUID : nat → string) (id calls : nat)
    (os : list HitObject) : list RpgShape :=
  match os with
  | [] => []
  | o :: os =>
      createdShape id (nameFor generateUID calls o) o
      :: createdShapes generateUID (S id) (callsAfter calls o) os
  end.

(** The raw objects of a document, in document order: those of the layers
    whose type is ["object"]. *)
Definition objectRefs (ls : list Layer) : list loc :=
  flat_map (λ layer, if String.eqb (l_type layer) "object" then l_objects layer else [])
           ls.

(** Three registered shapes, one of them a spawn marker at depth 2, on a
    map of 32 pixel tiles. *)
Definition spawnMap : RpgCommonMap :=
  {| data := None; width := 10; height := 10; tileWidth := 32; tileHeight := 32;
     layers := [];
     shapes := [ {| sh_id := 0; sh_name := "door"; hitbox := mkHitbox 0 0 8 8;
                    properties := emptyProps |};
                 {| sh_id := 1; sh_name := "spawn"; hitbox := mkHitbox 40 50 8 8;
                    properties := {| p_z := Some 2; p_other := ∅ |} |};
                 {| sh_id := 2; sh_name := "chest"; hitbox := mkHitbox 90 20 8 8;
                    properties := emptyProps |} ] |}.

Definition isSpawn (shape : RpgShape) : bool := String.eqb (sh_name shape) "spawn".

(** The number of calls of [generateUID] made when the loop reaches the
    object number [i] of [os]. *)
Definition callsBefore (calls : nat) (os : list HitObject) (i : nat) : nat :=
  fold_left callsAfter (take i os) calls.

(** A document with a tile layer between two object layers; the raw objects
    0 and 2 have no name, the raw object 1 is named. *)
Definition sampleDocument : MapData :=
  {| d_width := 10; d_height := 10; d_tileWidth := 32; d_tileHeight := 32;
     d_layers := [ {| l_type := "object"; l_z := None; l_tiles := [];
                      l_objects := [0%nat; 1%nat] |};
                   {| l_type := "tile"; l_z := Some 0; l_tiles := [Some groundCell];
                      l_objects := [7%nat] |};
                   {| l_type := "object"; l_z := None; l_tiles := [];
                      l_objects := [2%nat] |} ] |}.

Definition sampleObjects : list HitObject :=
  [ mkHitObject 10 10 5 5 None None;
    mkHitObject 20 20 5 5 (Some "door") None;
    mkHitObject 30 30 5 5 (Some "") (Some emptyProps) ].

Definition sampleWorld : World :=
  {| this := newMap;
     heap := list_to_map (zip [0%nat; 1%nat; 2%nat] sampleObjects);
     nextShape := 0; uidCalls := 0 |}.

(** A stand-in for [generateUID] whose calls return different strings. *)
Fixpoint tally (k : nat) : string :=
  match k with
  | O => ""
  | S k => String.append "i" (tally k)
  end.

Definition sampleUID (k : nat) : string := String.append "uid-" (tally k).

(** ** The shield animation (starter-kit-client, animations/index.ts) *)

(** A frame of an animation: [{ time, frameX, frameY }]. *)
Record Frame : Type := mkFrame {
  time : Z;
  frameX : Z;
  frameY : Z
}.

(** The body of [for (let j=0 ; j < 5 ; j++)], on the array and the counter
    [k]. *)
Definition toInner (i : Z) (st : list Frame * Z) (j : Z) : list Frame * Z :=
  let '(array, k) := st in
  (array ++ [{| time := k * 5; frameX := j; frameY := i |}], k + 1).

(** The body of [for (let i=0 ; i < 4 ; i++)]. *)
Definition toOuter (st : list Frame * Z) (i : Z) : list Frame * Z :=
  fold_left (toInner i) (seqZ 0 5) st.

(** [to()]: the frames of the default animation of the sprite sheet, which
    is declared with [framesWidth: 5] and [framesHeight: 4]. *)
Definition to : list Frame := fst (fold_left toOuter (seqZ 0 4) ([], 0)).

(** A map of ten by eight tiles of 32 by 16 pixels, without layers. *)
Definition gridMap : RpgCommonMap :=
  {| data := None; width := 10; height := 8; tileWidth := 32; tileHeight := 16;
     layers := []; shapes := [] |}.

(** A call of [open] with [waitingAction = true]. *)
Definition isWaitingOpen (r : Gui.request) : bool :=
  match r with
  | Gui.Open _ waitingAction _ => waitingAction
  | Gui.Close _ => false
  end.

(** A [random] that draws [k] when it is called with the bounds [lo] and
    [hi], and a value below the bounds of any other call. *)
Definition drawOf (lo hi k : Z) : Z → Z → Z :=
  λ lo' hi', if (lo' =? lo) && (hi' =? hi) then k else lo' - 1.

Definition notDoor (shape : RpgShape) : bool :=
  negb (String.eqb (sh_name shape) "door").

(** * Properties *)

(** ** Arrays *)

Lemma array_last_last {A : Type} (a : list A) : array_last a = last a.
Proof.
  unfold array_last, array_get.
  induction a as [|x a _] using rev_ind; [reflexivity|].
  rewrite length_app, last_snoc. simpl.
  destruct (Z.ltb_spec (Z.of_nat (length a + 1) - 1) 0) as [Hlt|_]; [lia|].
  replace (Z.to_nat (Z.of_nat (length a + 1) - 1)) with (length a + 0)%nat by lia.
  by rewrite lookup_app_r, Nat.add_0_r, Nat.sub_diag by lia.
Qed.

(** ** Tile lookup *)

Section TileLookupFacts.

Variable inter : Z * Z → Z * Z → bool.

(** One iteration of the loop appends the cell of the layer when the
    layer is a tile layer, the cell is present and it is included. *)
Lemma lookupLayer_spec this tileIndex zRange acc layer :
  lookupLayer inter this tileIndex zRange acc layer
  = acc ++ (snd <$> includedCells inter
                      {| data := data this; width := width this; height := height this;
                         tileWidth := tileWidth this; tileHeight := tileHeight this;
                         layers := [layer]; shapes := shapes this |}
                      tileIndex zRange).
Proof.
  unfold lookupLayer, includedCells, cellsAt, included, depth. simpl.
  destruct (String.eqb (l_type layer) "tile"); simpl;
    [|by rewrite app_nil_r].
  destruct (mjoin (array_get (l_tiles layer) tileIndex)) as [c|]; simpl;
    [|by rewrite app_nil_r].
  destruct (l_z layer) as [zl|], (tp_z (t_properties c)) as [zt|]; simpl;
    try reflexivity;
    try (match goal with |- context [inter ?a ?b] => destruct (inter a b) end;
         simpl; by rewrite ?app_nil_r).
Qed.

Lemma includedCells_cons this tileIndex zRange layer ls :
  layers this = layer :: ls →
  includedCells inter this tileIndex zRange
  = includedCells inter
      {| data := data this; width := width this; height := height this;
         tileWidth := tileWidth this; tileHeight := tileHeight this;
         layers := [layer]; shapes := shapes this |} tileIndex zRange
    ++ includedCells inter
      {| data := data this; width := width this; height := height this;
         tileWidth := tileWidth this; tileHeight := tileHeight this;
         layers := ls; shapes := shapes this |} tileIndex zRange.
Proof.
  intros Hl. unfold includedCells, cellsAt. rewrite Hl. simpl.
  destruct (if String.eqb (l_type layer) "tile" then _ else _); simpl;
    [destruct (included _ _ _ _)|]; reflexivity.
Qed.

(** The loop of [getTileByIndex] collects the included cells, in layer
    order. *)
Lemma fold_lookupLayer this tileIndex zRange :
  fold_left (lookupLayer inter this tileIndex zRange) (layers this) []
  = snd <$> includedCells inter this tileIndex zRange.
Proof.
  destruct this as [dt wd ht tw th ls sh]. simpl.
  assert (∀ l acc, fold_left
            (lookupLayer inter (mkMap dt wd ht tw th ls sh) tileIndex zRange) l acc
          = acc ++ (snd <$> includedCells inter (mkMap dt wd ht tw th l sh) tileIndex zRange))
    as Hgen.
  { induction l as [|layer l IH]; intros acc; simpl.
    - by rewrite app_nil_r.
    - rewrite IH.
      rewrite (includedCells_cons (mkMap dt wd ht tw th (layer :: l) sh) _ _ layer l eq_refl).
      simpl. rewrite fmap_app, app_assoc. f_equal.
      rewrite lookupLayer_spec. reflexivity. }
  rewrite Hgen. rewrite app_nil_l. reflexivity.
Qed.

End TileLookupFacts.

Lemma getTileByIndex_includedCells inter this tileIndex zRange :
  getTileByIndex inter this tileIndex zRange
  = tileInfoOf (snd <$> includedCells inter this tileIndex zRange).
Proof.
  unfold getTileByIndex, tileInfoOf.
  rewrite fold_lookupLayer, array_last_last. reflexivity.
Qed.

(** C1. The attributes that [getTileByIndex] returns are those of the last
    included cell in layer order; when no cell is included the result is the
    solid default: [hasCollision = true], no tiles, [isOverlay = false], no
    object groups. This holds whatever the overlap test is. *)
Theorem getTileByIndex_last_included_wins
    (inter : Z * Z → Z * Z → bool) (this : RpgCommonMap) (tileIndex : Z)
    (zRange : Z * Z) :
  let r := getTileByIndex inter this tileIndex zRange in
  match last (includedCells inter this tileIndex zRange) with
  | Some lc =>
      hasCollision r = collision (t_properties (snd lc))
      ∧ isOverlay r = overlay (t_properties (snd lc))
      ∧ isClimbable r = climb (t_properties (snd lc))
      ∧ objectGroups r = t_objectGroups (snd lc)
  | None =>
      hasCollision r = Some true ∧ tiles r = [] ∧ isOverlay r = Some false
      ∧ objectGroups r = []
  end.
Proof.
  intros r. subst r. rewrite getTileByIndex_includedCells.
  unfold tileInfoOf. rewrite fmap_last.
  destruct (last (includedCells inter this tileIndex zRange)) as [lc|] eqn:Hlast;
    simpl.
  - repeat split.
  - apply last_None in Hlast. rewrite Hlast. repeat split.
Qed.

(** The overlap test modelled from the specification, as an inequality. *)
Lemma intersection_spec a b c d :
  intersection (a, b) (c, d) = true ↔ a <= d ∧ c <= b.
Proof.
  unfold intersection. simpl. rewrite andb_true_iff, !Z.leb_le. reflexivity.
Qed.

(** C2. The cells that [getTileByIndex] keeps are, in layer order, the cells
    of the tile layers present at the index that pass the z filter: the
    depth of a cell is [layerZ + (tileZ or 0)] when the layer declares z,
    else [tileZ] when the tile declares it, else undefined; a cell of
    undefined depth is kept, and a cell of depth [d] is kept exactly when the
    overlap test of the range with [(d*tileHeight, d*tileHeight +
    tileHeight)] succeeds; with the overlap test of closed intervals, that is
    when the range starts at or below [d*tileHeight + tileHeight] and ends
    at or above [d*tileHeight]. *)
Theorem getTileByIndex_z_filter
    (inter : Z * Z → Z * Z → bool) (this : RpgCommonMap) (tileIndex : Z)
    (zRange : Z * Z) :
  tiles (getTileByIndex inter this tileIndex zRange)
  = snd <$> List.filter (included inter this zRange) (cellsAt this tileIndex)
  ∧ ∀ layer cell,
      depth (layer, cell)
      = match l_z layer with
        | Some zl => Some (zl + default 0 (tp_z (t_properties cell)))
        | None => tp_z (t_properties cell)
        end
      ∧ match depth (layer, cell) with
        | None => included inter this zRange (layer, cell) = true
        | Some d =>
            included inter this zRange (layer, cell)
            = inter zRange (d * tileHeight this, d * tileHeight this + tileHeight this)
            ∧ (included intersection this zRange (layer, cell) = true
               ↔ fst zRange <= d * tileHeight this + tileHeight this
                 ∧ d * tileHeight this <= snd zRange)
        end.
Proof.
  split.
  - rewrite getTileByIndex_includedCells. unfold tileInfoOf, includedCells.
    destruct (last _); reflexivity.
  - intros layer cell. destruct zRange as [lo hi].
    unfold included, depth. cbn [fst snd].
    destruct (l_z layer) as [zl|], (tp_z (t_properties cell)) as [zt|];
      cbn [default]; split; try reflexivity;
      (split; [reflexivity|apply intersection_spec]).
Qed.

(** With an overlap test that counts a shared end, the closed test
    [intersection], the pixel value [tileHeight] belongs to the bands of
    depth 0 and of depth 1: on 32 pixel tiles the ranges [(32, 64)] and
    [(32, 63)] keep the cell of depth 0 too, the range [(0, 32)] keeps the
    cell of depth 1 too, and the later layer decides the attributes. *)
Lemma zOverlap_boundary_examples :
  attributes (getTileByIndex intersection (oneTileMap [bridgeLayer; groundLayer]) 0 (32, 64))
  = cellAttributes groundCell
  ∧ attributes (getTileByIndex intersection (oneTileMap [bridgeLayer; groundLayer]) 0 (32, 63))
    = cellAttributes groundCell
  ∧ attributes (getTileByIndex intersection (oneTileMap [groundLayer; bridgeLayer]) 0 (0, 32))
    = cellAttributes bridgeCell
  ∧ tiles (getTileByIndex intersection (oneTileMap [groundLayer; bridgeLayer]) 0 (0, 32))
    = [groundCell; bridgeCell].
Proof. repeat split. Qed.

(** The bands under the closed test [intersection]: a range that ends below
    [tileHeight] keeps only the cell of depth 0, a range that starts above
    [tileHeight] only the cell of depth 1, and a range that contains
    [tileHeight] keeps both, the later layer deciding the attributes. *)
Lemma zOverlap_closed_bands
    (this : RpgCommonMap) (tileIndex : Z) (l0 l1 : Layer) (c0 c1 : Tile) (a b : Z) :
  0 < tileHeight this →
  cellsAt this tileIndex = [(l0, c0); (l1, c1)]
  ∨ cellsAt this tileIndex = [(l1, c1); (l0, c0)] →
  depth (l0, c0) = Some 0 →
  depth (l1, c1) = Some 1 →
  a <= b →
  let r := getTileByIndex intersection this tileIndex (a, b) in
  (0 <= b < tileHeight this → tiles r = [c0] ∧ attributes r = cellAttributes c0)
  ∧ (tileHeight this < a <= 2 * tileHeight this →
     tiles r = [c1] ∧ attributes r = cellAttributes c1)
  ∧ (a <= tileHeight this <= b →
     tiles r = snd <$> cellsAt this tileIndex
     ∧ ∀ lc, last (cellsAt this tileIndex) = Some lc →
             attributes r = cellAttributes (snd lc)).
Proof.
  intros Hth Hcells Hd0 Hd1 Hab r. subst r.
  rewrite getTileByIndex_includedCells. unfold includedCells.
  assert (∀ q, included intersection this q (l0, c0)
               = intersection q (0, tileHeight this)) as Hi0.
  { intros q. unfold included. rewrite Hd0. do 2 f_equal; lia. }
  assert (∀ q, included intersection this q (l1, c1)
               = intersection q (tileHeight this, 2 * tileHeight this)) as Hi1.
  { intros q. unfold included. rewrite Hd1. do 2 f_equal; lia. }
  assert (∀ x y, intersection (a, b) (x, y) = true ∨ intersection (a, b) (x, y) = false)
    as Hdec by (intros; destruct (intersection _ _); auto).
  repeat split; intros.
  all: destruct Hcells as [Hc|Hc]; rewrite Hc in *; simpl; rewrite ?Hi0, ?Hi1.
  all: destruct (Hdec 0 (tileHeight this)) as [E0|E0];
       destruct (Hdec (tileHeight this) (2 * tileHeight this)) as [E1|E1];
       rewrite ?E0, ?E1;
       try (apply intersection_spec in E0);
       try (apply intersection_spec in E1);
       try (apply not_true_iff_false in E0; rewrite intersection_spec in E0);
       try (apply not_true_iff_false in E1; rewrite intersection_spec in E1);
       try lia; simplify_eq/=; try reflexivity.
Qed.






(** ** The shape registry *)

Lemma bind_Some {A B : Type} (m : M A) (k : A → M B) w a w' :
  m w = Some (a, w') → bind m k w = k a w'.
Proof. intros H. unfold bind. rewrite H. reflexivity. Qed.

Lemma bind_None {A B : Type} (m : M A) (k : A → M B) w :
  m w = None → bind m k w = None.
Proof. intros H. unfold bind. rewrite H. reflexivity. Qed.

(** [createShape] on a live reference: the shape returned and the world
    afterwards. *)
Lemma createShape_spec generateUID obj w o :
  heap w !! obj = Some o →
  let name := nameFor generateUID (uidCalls w) o in
  let shape := createdShape (nextShape w) name o in
  createShape generateUID obj w
  = Some (shape,
          {| this := pushShape (this w) shape;
             heap := <[obj := createdObject name o]> (heap w);
             nextShape := S (nextShape w);
             uidCalls := callsAfter (uidCalls w) o |}).
Proof.
  intros Ho name shape. subst name shape.
  unfold createShape, nameFor, callsAfter, bind, readObj, writeObj, newRpgShape,
    getThis, setThis, ret, throw, callGenerateUID.
  rewrite Ho. destruct o as [x y wd ht nm pr]. cbn [ho_name].
  destruct (truthyName nm) as [s|];
    cbn -[array_last];
    repeat (rewrite lookup_insert_eq; cbn -[array_last]);
    rewrite array_last_last, last_snoc, ?insert_insert_eq;
    reflexivity.
Qed.

Lemma truthyName_Some n s : truthyName n = Some s → n = Some s.
Proof.
  unfold truthyName. destruct n as [t|]; [|discriminate].
  destruct (String.eqb t ""); [discriminate|]. congruence.
Qed.

Lemma find_snoc_fresh {A : Type} (f : A → bool) (l : list A) (x : A) :
  Forall (λ y, f y = false) l → f x = true → List.find f (l ++ [x]) = Some x.
Proof.
  intros Hl Hx. induction Hl as [|y l Hy _ IH]; simpl.
  - by rewrite Hx.
  - by rewrite Hy.
Qed.

Lemma find_filter_negb {A : Type} (f : A → bool) (l : list A) :
  List.find f (List.filter (λ y, negb (f y)) l) = None.
Proof.
  induction l as [|y l IH]; simpl; [reflexivity|].
  destruct (f y) eqn:Hy; simpl; [exact IH|]. by rewrite Hy.
Qed.

Lemma filter_all {A : Type} (f : A → bool) (l : list A) :
  Forall (λ y, f y = true) l → List.filter f l = l.
Proof.
  induction 1 as [|y l Hy _ IH]; simpl; [reflexivity|]. by rewrite Hy, IH.
Qed.

Lemma name_not_registered (l : list RpgShape) (name : string) :
  name ∉ (sh_name <$> l) → Forall (λ s, String.eqb (sh_name s) name = false) l.
Proof.
  intros Hn. apply Forall_forall. intros s Hs.
  apply String.eqb_neq. intros <-. apply Hn.
  apply list_elem_of_fmap. exists s. split; [reflexivity|assumption].
Qed.

(** C5. A raw rectangle without a name is given to [createShape], and the
    identifier generated for it is not the name of a registered shape: then
    [getShape] of the returned name finds a shape with that rectangle as
    hitbox. After [removeShape] of a name, [getShape] of it finds nothing.
    [removeShape] of a name that no registered shape has leaves the instance
    as it is; [removeShape] is total, so nothing is raised. *)
Theorem shape_lifecycle (generateUID : nat → string) (w : World) (obj : loc)
    (x y wd ht : Z) :
  heap w !! obj = Some (mkHitObject x y wd ht None None) →
  generateUID (uidCalls w) ∉ (sh_name <$> shapes (this w)) →
  ∃ shape w',
    createShape generateUID obj w = Some (shape, w')
    ∧ (∃ found, getShape (this w') (sh_name shape) = Some found
                ∧ hitbox found = mkHitbox x y wd ht)
    ∧ getShape (removeShape (this w') (sh_name shape)) (sh_name shape) = None
    ∧ (∀ t name, getShape (removeShape t name) name = None)
    ∧ (∀ t name, name ∉ (sh_name <$> shapes t) → removeShape t name = t).
Proof.
  intros Ho Hfresh. eexists _, _. split; [by apply createShape_spec|].
  simpl. unfold nameFor. simpl.
  assert (∀ t name, getShape (removeShape t name) name = None) as Hgone.
  { intros t name. unfold getShape, removeShape. simpl.
    apply (find_filter_negb (λ shape, String.eqb (sh_name shape) name)). }
  repeat split.
  - eexists. split.
    + unfold getShape, pushShape. simpl. apply find_snoc_fresh.
      * by apply name_not_registered.
      * simpl. apply String.eqb_refl.
    + reflexivity.
  - apply Hgone.
  - exact Hgone.
  - intros t name Hn. destruct t as [dt wdt htt tw th ls sh].
    unfold removeShape. simpl in *. f_equal.
    apply filter_all. eapply Forall_impl; [by apply name_not_registered|].
    simpl. intros s ->. reflexivity.
Qed.

Lemma shape_lifecycle_witness :
  ∃ shape w',
    createShape (λ _, "uid0") 0%nat
      {| this := newMap; heap := {[ 0%nat := mkHitObject 10 10 5 5 None None ]};
         nextShape := 0; uidCalls := 0 |} = Some (shape, w')
    ∧ (∃ found, getShape (this w') (sh_name shape) = Some found
                ∧ hitbox found = mkHitbox 10 10 5 5)
    ∧ getShape (removeShape (this w') (sh_name shape)) (sh_name shape) = None
    ∧ (∀ t name, getShape (removeShape t name) name = None)
    ∧ (∀ t name, name ∉ (sh_name <$> shapes t) → removeShape t name = t).
Proof.
  apply (shape_lifecycle (λ _, "uid0") _ 0%nat 10 10 5 5).
  - reflexivity.
  - simpl. apply not_elem_of_nil.
Defined.

(** C10. [createShape] writes through the reference it is given: the object
    keeps a truthy name and gets the generated one otherwise, keeps its
    properties mapping and gets an empty one otherwise; its rectangle and
    every other object are unchanged. The shape returned is the entry that
    the registry holds last, and no other entry has its identity. *)
Theorem createShape_mutates_input (generateUID : nat → string) (w : World)
    (obj : loc) (o : HitObject) :
  heap w !! obj = Some o →
  Forall (λ s, (sh_id s < nextShape w)%nat) (shapes (this w)) →
  ∃ shape w' o',
    createShape generateUID obj w = Some (shape, w')
    ∧ heap w' !! obj = Some o'
    ∧ match truthyName (ho_name o) with
      | Some _ => ho_name o' = ho_name o
      | None => ho_name o' = Some (generateUID (uidCalls w))
      end
    ∧ match ho_properties o with
      | Some _ => ho_properties o' = ho_properties o
      | None => ho_properties o' = Some emptyProps
      end
    ∧ (ho_x o', ho_y o', ho_width o', ho_height o')
      = (ho_x o, ho_y o, ho_width o, ho_height o)
    ∧ (∀ other, other ≠ obj → heap w' !! other = heap w !! other)
    ∧ shapes (this w') = shapes (this w) ++ [shape]
    ∧ array_last (getShapes (this w')) = Some shape
    ∧ (∀ (i : nat) s, shapes (this w') !! i = Some s → sh_id s = sh_id shape →
                      i = length (shapes (this w))).
Proof.
  intros Ho Hids. eexists _, _, _. split; [by apply createShape_spec|].
  simpl. split; [apply lookup_insert_eq|].
  unfold nameFor, createdObject. simpl.
  repeat split.
  - destruct (truthyName (ho_name o)) as [s|] eqn:Hn; [|reflexivity].
    by rewrite (truthyName_Some _ _ Hn).
  - destruct (ho_properties o); reflexivity.
  - intros other Hne. by apply lookup_insert_ne.
  - unfold getShapes. simpl. by rewrite array_last_last, last_snoc.
  - intros i s Hi Hid.
    destruct (decide (i < length (shapes (this w)))%nat) as [Hlt|Hge].
    + rewrite lookup_app_l in Hi by done.
      rewrite Forall_lookup in Hids. specialize (Hids _ _ Hi). simpl in *. lia.
    + apply lookup_lt_Some in Hi. rewrite length_app in Hi. simpl in *. lia.
Qed.

Lemma createShape_mutates_input_witness :
  ∃ shape w' o',
    createShape (λ _, "uid0") 0%nat
      {| this := newMap; heap := {[ 0%nat := mkHitObject 10 10 5 5 None None ]};
         nextShape := 0; uidCalls := 0 |} = Some (shape, w')
    ∧ heap w' !! 0%nat = Some o'
    ∧ ho_name o' = Some "uid0"
    ∧ ho_properties o' = Some emptyProps.
Proof.
  destruct (createShape_mutates_input (λ _, "uid0")
              {| this := newMap; heap := {[ 0%nat := mkHitObject 10 10 5 5 None None ]};
                 nextShape := 0; uidCalls := 0 |} 0%nat
              (mkHitObject 10 10 5 5 None None))
    as (shape & w' & o' & Hc & Hh & Hn & Hp & _).
  - reflexivity.
  - simpl. constructor.
  - exists shape, w', o'. simpl in Hn, Hp. repeat split; assumption.
Defined.

(** [properties.z * zTileHeight || 0] is the product when [z] is set, and 0
    when it is not. *)
Lemma orElse_times (oz : option Z) (h : Z) :
  orElse (times (toNumber oz) (Num h)) 0
  = match oz with
    | Some z => z * h
    | None => 0
    end.
Proof.
  destruct oz as [z|]; simpl; [|reflexivity].
  destruct (Z.eqb_spec (z * h) 0); congruence.
Qed.

(** The position returned when the draw is the index [i] of a match. *)
Lemma getPositionByShape_draw random this filter (i : nat) start :
  List.filter filter (getShapes this) !! i = Some start →
  random 0 (Z.of_nat (length (List.filter filter (getShapes this))) - 1) = Z.of_nat i →
  getPositionByShape random this filter = Some (Some (positionOf this start)).
Proof.
  intros Hi Hr. unfold getPositionByShape. rewrite Hr.
  pose proof (lookup_lt_Some _ _ _ Hi) as Hlt.
  destruct (Z.eqb_spec (Z.of_nat (length (List.filter filter (getShapes this)))) 0)
    as [Hz|_]; [lia|]. simpl.
  unfold array_get. destruct (Z.ltb_spec (Z.of_nat i) 0) as [?|_]; [lia|].
  rewrite Nat2Z.id, Hi. unfold positionOf. by rewrite orElse_times.
Qed.

(** C6. When no registered shape satisfies the predicate,
    [getPositionByShape] returns [null]. Otherwise it calls [random] with the
    bounds 0 and the number of matches less one, and returns the hitbox
    position of the match at the index drawn, a registered shape that
    satisfies the predicate, with [z] that shape's [properties.z] times
    [zTileHeight], or 0 when it is unset; a draw within the bounds always
    selects a match. The equally likely draws of that call select the
    matches one for one, in the order of the registry: each match is as
    likely as the others. *)
Theorem getPositionByShape_selects_drawn (random : Z → Z → Z)
    (this : RpgCommonMap) (filter : RpgShape → bool) :
  let matches := List.filter filter (getShapes this) in
  let n := Z.of_nat (length matches) in
  (matches = [] → getPositionByShape random this filter = Some None)
  ∧ (∀ (i : nat) start,
       matches !! i = Some start →
       random 0 (n - 1) = Z.of_nat i →
       start ∈ shapes this ∧ filter start = true
       ∧ getPositionByShape random this filter
         = Some (Some {| pos_x := hb_x (hitbox start);
                         pos_y := hb_y (hitbox start);
                         pos_z := match p_z (properties start) with
                                  | Some z => z * zTileHeight this
                                  | None => 0
                                  end |}))
  ∧ (matches ≠ [] → 0 <= random 0 (n - 1) <= n - 1 →
     ∃ (i : nat) start, random 0 (n - 1) = Z.of_nat i ∧ matches !! i = Some start)
  ∧ (λ k, getPositionByShape (drawOf 0 (n - 1) k) this filter)
      <$> random_outcomes 0 (n - 1)
    = (λ start, Some (Some (positionOf this start))) <$> matches.
Proof.
  intros matches n. split; [|split; [|split]].
  - intros Hm. unfold getPositionByShape. fold matches. by rewrite Hm.
  - intros i start Hi Hr.
    assert (In start (List.filter filter (getShapes this))) as Hin
      by (apply list_elem_of_In, list_elem_of_lookup; eauto).
    apply filter_In in Hin as [Hin Hf].
    split; [by apply list_elem_of_In|]. split; [exact Hf|].
    apply (getPositionByShape_draw random this filter i start Hi Hr).
  - intros Hm Hr.
    assert (0 < n) as Hn by (subst n; destruct matches; [done|simpl; lia]).
    destruct (lookup_lt_is_Some_2 matches (Z.to_nat (random 0 (n - 1))))
      as [start Hstart]; [subst n; lia|].
    exists (Z.to_nat (random 0 (n - 1))), start. split; [lia|exact Hstart].
  - unfold random_outcomes. apply list_eq. intros i.
    rewrite !list_lookup_fmap.
    replace (n - 1 - 0 + 1) with n by lia.
    destruct (decide (i < length matches)%nat) as [Hlt|Hge].
    + rewrite lookup_seqZ_lt by (subst n; lia).
      destruct (lookup_lt_is_Some_2 matches i Hlt) as [start Hstart].
      rewrite Hstart. simpl. f_equal.
      apply (getPositionByShape_draw _ this filter i start Hstart).
      fold matches. fold n. unfold drawOf. rewrite !Z.eqb_refl. simpl. lia.
    + rewrite lookup_seqZ_ge by (subst n; lia).
      rewrite lookup_ge_None_2 by lia. reflexivity.
Qed.

Lemma getPositionByShape_selects_drawn_witness :
  getPositionByShape (λ lo hi, hi - 1) spawnMap notDoor
  = Some (Some {| pos_x := 40; pos_y := 50; pos_z := 64 |}).
Proof.
  destruct (getPositionByShape_selects_drawn (λ lo hi, hi - 1) spawnMap notDoor)
    as (_ & Hdrawn & _).
  destruct (Hdrawn 0%nat
              {| sh_id := 1; sh_name := "spawn"; hitbox := mkHitbox 40 50 8 8;
                 properties := {| p_z := Some 2; p_other := ∅ |} |}
              eq_refl eq_refl) as (_ & _ & Hpos).
  exact Hpos.
Defined.

(** The spawn marker at depth 2 on 32 pixel tiles is reported at [z = 64]. *)
Example getPositionByShape_z64 :
  getPositionByShape (λ lo _, lo) spawnMap isSpawn
  = Some (Some {| pos_x := 40; pos_y := 50; pos_z := 64 |}).
Proof. reflexivity. Qed.

(** ** Loading a document *)

Lemma forOf_app {A : Type} (l1 l2 : list A) (body : A → M unit) w :
  forOf (l1 ++ l2) body w = bind (forOf l1 body) (λ _, forOf l2 body) w.
Proof.
  revert w. induction l1 as [|a l1 IH]; intros w; simpl; [reflexivity|].
  unfold bind in *.
  destruct (body a w) as [[[] w1]|]; [|reflexivity]. apply IH.
Qed.

(** The two nested loops of [_extractShapes] visit the raw objects of the
    object layers, in document order. *)
Lemma forOf_layers (body : loc → M unit) (ls : list Layer) w :
  forOf ls (λ layer,
    if negb (String.eqb (l_type layer) "object") then ret tt
    else forOf (l_objects layer) body) w
  = forOf (objectRefs ls) body w.
Proof.
  revert w. induction ls as [|layer ls IH]; intros w; [reflexivity|].
  unfold objectRefs. simpl. fold (objectRefs ls).
  destruct (String.eqb (l_type layer) "object"); simpl.
  - rewrite forOf_app. unfold bind.
    destruct (forOf (l_objects layer) body w) as [[[] w1]|]; [|reflexivity].
    apply IH.
  - unfold bind, ret. apply IH.
Qed.

Lemma shapes_pushed (l : list RpgShape) (t : RpgCommonMap) :
  fold_left pushShape l t
  = {| data := data t; width := width t; height := height t;
       tileWidth := tileWidth t; tileHeight := tileHeight t;
       layers := layers t; shapes := shapes t ++ l |}.
Proof.
  revert t. induction l as [|s l IH]; intros t; simpl.
  - rewrite app_nil_r. by destruct t.
  - rewrite IH. simpl. by rewrite <- app_assoc.
Qed.

Lemma live_after_insert (h : gmap loc HitObject) (refs : list loc)
    (os : list HitObject) (obj : loc) (o1 : HitObject) :
  obj ∉ refs →
  Forall2 (λ r o, h !! r = Some o) refs os →
  Forall2 (λ r o, <[obj := o1]> h !! r = Some o) refs os.
Proof.
  intros Hn Hlive. induction Hlive as [|r o refs os Hr _ IH]; constructor.
  - rewrite lookup_insert_ne; [exact Hr|]. intros <-. apply Hn. left.
  - apply IH. intros Hin. apply Hn. by right.
Qed.

(** The loop over the raw objects: every object is live and no object is
    visited twice. *)
Lemma forOf_createShape generateUID (refs : list loc) :
  ∀ (os : list HitObject) (w : World),
    NoDup refs →
    Forall2 (λ obj o, heap w !! obj = Some o) refs os →
    ∃ w',
      forOf refs (λ obj, createShape generateUID obj ;; ret tt) w = Some (tt, w')
      ∧ this w'
        = fold_left pushShape
            (createdShapes generateUID (nextShape w) (uidCalls w) os) (this w)
      ∧ (∀ l, l ∉ refs → heap w' !! l = heap w !! l)
      ∧ (∀ (i : nat) obj o s,
           refs !! i = Some obj → os !! i = Some o →
           createdShapes generateUID (nextShape w) (uidCalls w) os !! i = Some s →
           heap w' !! obj = Some (createdObject (sh_name s) o)).
Proof.
  induction refs as [|obj refs IH]; intros os w Hnd Hlive.
  - apply Forall2_nil_inv_l in Hlive as ->. exists w. simpl.
    repeat split; intros; try done.
  - apply Forall2_cons_inv_l in Hlive as (o & os' & Ho & Hlive & ->).
    apply NoDup_cons in Hnd as [Hnotin Hnd].
    pose proof (createShape_spec generateUID obj w o Ho) as Hc. simpl in Hc.
    set (shape := createdShape (nextShape w) (nameFor generateUID (uidCalls w) o) o) in *.
    set (w1 := {| this := pushShape (this w) shape;
                  heap := <[obj := createdObject (nameFor generateUID (uidCalls w) o) o]> (heap w);
                  nextShape := S (nextShape w);
                  uidCalls := callsAfter (uidCalls w) o |}) in *.
    destruct (IH os' w1 Hnd) as (w' & Hrun & Hthis & Hframe & Hwritten).
    { simpl. by apply live_after_insert. }
    exists w'. split; [|split; [|split]].
    + simpl. unfold bind at 1. unfold bind at 1. rewrite Hc. simpl. exact Hrun.
    + rewrite Hthis. reflexivity.
    + intros l Hl. apply not_elem_of_cons in Hl as [Hne Hl].
      rewrite (Hframe l Hl). simpl. by rewrite lookup_insert_ne.
    + intros [|i] r o' s Hr Ho' Hs; simpl in *; simplify_eq.
      * rewrite (Hframe _ Hnotin). simpl. by rewrite lookup_insert_eq.
      * by eapply Hwritten.
Qed.

Lemma createdShapes_length generateUID (os : list HitObject) :
  ∀ id calls, length (createdShapes generateUID id calls os) = length os.
Proof. induction os as [|o os IH]; intros id calls; simpl; [|rewrite IH]; reflexivity. Qed.

Lemma createdShapes_lookup generateUID (os : list HitObject) :
  ∀ id calls (i : nat) o,
    os !! i = Some o →
    createdShapes generateUID id calls os !! i
    = Some (createdShape (id + i) (nameFor generateUID (callsBefore calls os i) o) o).
Proof.
  induction os as [|o' os IH]; intros id calls [|i] o Hi; simpl in *; try done.
  - simplify_eq. by rewrite Nat.add_0_r.
  - rewrite (IH _ _ _ _ Hi). unfold callsBefore. simpl.
    by rewrite Nat.add_succ_r.
Qed.

Lemma callsAfter_ge calls o : (calls ≤ callsAfter calls o)%nat.
Proof. unfold callsAfter. destruct (truthyName (ho_name o)); lia. Qed.

Lemma callsBefore_S calls os (i : nat) o :
  os !! i = Some o →
  callsBefore calls os (S i) = callsAfter (callsBefore calls os i) o.
Proof.
  intros Hi. unfold callsBefore. rewrite (take_S_r _ _ _ Hi), fold_left_app.
  reflexivity.
Qed.

Lemma callsBefore_mono calls os (i j : nat) :
  (i ≤ j)%nat → (callsBefore calls os i ≤ callsBefore calls os j)%nat.
Proof.
  induction 1 as [|j _ IH]; [lia|].
  destruct (os !! j) as [o|] eqn:Hj.
  - rewrite (callsBefore_S _ _ _ _ Hj). pose proof (callsAfter_ge (callsBefore calls os j) o). lia.
  - apply lookup_ge_None in Hj. unfold callsBefore in *.
    rewrite (take_ge os (S j)) by lia. by rewrite (take_ge os j) in IH by lia.
Qed.

(** Two objects without a name are named by different calls. *)
Lemma callsBefore_lt calls os (i j : nat) oi :
  (i < j)%nat → os !! i = Some oi → truthyName (ho_name oi) = None →
  (callsBefore calls os i < callsBefore calls os j)%nat.
Proof.
  intros Hij Hi Hn.
  pose proof (callsBefore_mono calls os (S i) j ltac:(lia)) as Hmono.
  rewrite (callsBefore_S _ _ _ _ Hi) in Hmono. unfold callsAfter in Hmono.
  rewrite Hn in Hmono. lia.
Qed.

(** C7. [load] of a document whose raw objects are live and pairwise
    distinct: every object of the layers of type ["object"], and no other,
    becomes a shape at the end of the registry, in document order; the shape
    has the rectangle of its object and the object's truthy name, or else
    the identifier that [generateUID] returned for it, which is also written
    into the object; when the calls of [generateUID] return different
    strings, the generated names differ from each other. *)
Theorem load_extracts_shapes (generateUID : nat → string) (w : World)
    (d : MapData) (os : list HitObject) :
  NoDup (objectRefs (d_layers d)) →
  Forall2 (λ obj o, heap w !! obj = Some o) (objectRefs (d_layers d)) os →
  let new := createdShapes generateUID (nextShape w) (uidCalls w) os in
  ∃ w',
    load generateUID d w = Some (tt, w')
    ∧ (data (this w'), layers (this w')) = (Some d, d_layers d)
    ∧ (width (this w'), height (this w'), tileWidth (this w'), tileHeight (this w'))
      = (d_width d, d_height d, d_tileWidth d, d_tileHeight d)
    ∧ shapes (this w') = shapes (this w) ++ new
    ∧ length new = length (objectRefs (d_layers d))
    ∧ (∀ (i : nat) obj o,
         objectRefs (d_layers d) !! i = Some obj → os !! i = Some o →
         ∃ s, new !! i = Some s
              ∧ hitbox s = mkHitbox (ho_x o) (ho_y o) (ho_width o) (ho_height o)
              ∧ sh_name s = match truthyName (ho_name o) with
                            | Some name => name
                            | None => generateUID (callsBefore (uidCalls w) os i)
                            end
              ∧ heap w' !! obj = Some (createdObject (sh_name s) o))
    ∧ ((∀ j k : nat, generateUID j = generateUID k → j = k) →
       ∀ (i j : nat) oi oj si sj,
         i ≠ j → os !! i = Some oi → os !! j = Some oj →
         truthyName (ho_name oi) = None → truthyName (ho_name oj) = None →
         new !! i = Some si → new !! j = Some sj → sh_name si ≠ sh_name sj).
Proof.
  intros Hnd Hlive new.
  set (w0 := {| this := {| data := Some d; width := d_width d; height := d_height d;
                           tileWidth := d_tileWidth d; tileHeight := d_tileHeight d;
                           layers := d_layers d; shapes := shapes (this w) |};
                heap := heap w; nextShape := nextShape w; uidCalls := uidCalls w |}).
  destruct (forOf_createShape generateUID (objectRefs (d_layers d)) os w0 Hnd Hlive)
    as (w' & Hrun & Hthis & _ & Hwritten).
  rewrite shapes_pushed in Hthis. simpl in Hthis. fold new in Hthis.
  exists w'. split; [|rewrite Hthis; simpl; repeat split].
  - unfold load, _extractShapes, bind, getThis, setThis. simpl.
    rewrite forOf_layers. exact Hrun.
  - unfold new. rewrite createdShapes_length.
    symmetry. by eapply Forall2_length.
  - intros i obj o Hobj Ho.
    pose proof (createdShapes_lookup generateUID os (nextShape w) (uidCalls w) i o Ho)
      as Hs. fold new in Hs.
    eexists. split; [exact Hs|]. split; [reflexivity|]. split; [reflexivity|].
    exact (Hwritten i obj o _ Hobj Ho Hs).
  - intros Hinj i j oi oj si sj Hij Hi Hj Hni Hnj Hsi Hsj.
    unfold new in Hsi, Hsj.
    rewrite (createdShapes_lookup _ _ _ _ _ _ Hi) in Hsi.
    rewrite (createdShapes_lookup _ _ _ _ _ _ Hj) in Hsj.
    simplify_eq. simpl. unfold nameFor. rewrite Hni, Hnj. intros Heq.
    apply Hinj in Heq.
    destruct (decide (i < j)%nat).
    + pose proof (callsBefore_lt (uidCalls w) os i j oi ltac:(lia) Hi Hni). lia.
    + pose proof (callsBefore_lt (uidCalls w) os j i oj ltac:(lia) Hj Hnj). lia.
Qed.

Lemma load_extracts_shapes_witness :
  ∃ w',
    load sampleUID sampleDocument sampleWorld = Some (tt, w')
    ∧ sh_name <$> shapes (this w') = ["uid-"; "door"; "uid-i"].
Proof.
  destruct (load_extracts_shapes sampleUID sampleWorld sampleDocument sampleObjects)
    as (w' & Hload & _ & _ & Hshapes & _).
  - apply (bool_decide_unpack _). vm_compute. exact I.
  - repeat constructor.
  - exists w'. split; [exact Hload|]. rewrite Hshapes. reflexivity.
Defined.

(** ** Gui *)

Section GuiFacts.

Import Gui.

Lemma settle_length p v ps : length (settle p v ps) = length ps.
Proof.
  unfold settle. destruct (ps !! p) as [[|u]|]; try reflexivity.
  apply length_insert.
Qed.

Lemma settle_other p q v ps : p ≠ q → settle p v ps !! q = ps !! q.
Proof.
  intros Hne. unfold settle. destruct (ps !! p) as [[|u]|]; try reflexivity.
  by apply list_lookup_insert_ne.
Qed.

Lemma settle_pending p v ps :
  ps !! p = Some Pending → settle p v ps !! p = Some (Fulfilled v).
Proof.
  intros Hp. unfold settle. rewrite Hp.
  apply list_lookup_insert_eq. by eapply lookup_lt_Some.
Qed.

(** A fulfilled promise keeps its value: a second call of its resolver
    does nothing. *)
Lemma settle_fulfilled p q v u ps :
  ps !! q = Some (Fulfilled u) → settle p v ps !! q = Some (Fulfilled u).
Proof.
  intros Hq. destruct (decide (p = q)) as [->|Hne].
  - unfold settle. by rewrite Hq.
  - by rewrite settle_other.
Qed.

Lemma open_promise data waitingAction blockPlayerInput s :
  fst (open data waitingAction blockPlayerInput s) = length (promises s).
Proof. reflexivity. Qed.

Lemma open_promises data waitingAction blockPlayerInput s :
  promises (snd (open data waitingAction blockPlayerInput s))
  = if waitingAction then promises s ++ [Pending]
    else promises s ++ [Fulfilled VUndefined].
Proof.
  unfold open. simpl.
  destruct waitingAction, blockPlayerInput; simpl; try reflexivity.
  all: unfold settle; rewrite lookup_app_r, Nat.sub_diag by lia; simpl.
  all: by rewrite insert_app_r_alt, Nat.sub_diag by lia.
Qed.

(** [open] leaves the promises made before it as they are. *)
Lemma open_earlier data waitingAction blockPlayerInput s (q : nat) st :
  promises s !! q = Some st →
  promises (snd (open data waitingAction blockPlayerInput s)) !! q = Some st.
Proof.
  intros Hq. rewrite open_promises.
  destruct waitingAction; by apply lookup_app_l_Some.
Qed.

Lemma close_promises data s :
  promises (close data s)
  = match _close s with
    | Nothing => promises s
    | Resolve p => settle p data (promises s)
    end.
Proof. unfold close. simpl. destruct (_blockPlayerInput s); reflexivity. Qed.

Lemma step_fulfilled s r (q : nat) u :
  promises s !! q = Some (Fulfilled u) →
  promises (step s r) !! q = Some (Fulfilled u).
Proof.
  intros Hq. destruct r as [data wa b|data]; cbn [step].
  - by apply open_earlier.
  - rewrite close_promises. destruct (_close s); [exact Hq|].
    by apply settle_fulfilled.
Qed.

Lemma run_fulfilled rs : ∀ s (q : nat) u,
  promises s !! q = Some (Fulfilled u) →
  promises (run rs s) !! q = Some (Fulfilled u).
Proof.
  induction rs as [|r rs IH]; intros s q u Hq; simpl; [exact Hq|].
  apply IH. by apply step_fulfilled.
Qed.

Lemma run_opens_pending rs : ∀ s (q : nat),
  forallb isOpen rs = true →
  promises s !! q = Some Pending →
  promises (run rs s) !! q = Some Pending.
Proof.
  induction rs as [|r rs IH]; intros s q Hrs Hq; simpl in *; [exact Hq|].
  apply andb_true_iff in Hrs as [Hr Hrs].
  apply IH; [exact Hrs|]. destruct r; [|discriminate]. cbn [step].
  by apply open_earlier.
Qed.

Lemma open_close_fn data waitingAction blockPlayerInput s :
  _close (snd (open data waitingAction blockPlayerInput s))
  = if waitingAction then Resolve (length (promises s)) else _close s.
Proof. unfold open. simpl. destruct waitingAction, blockPlayerInput; reflexivity. Qed.

Lemma close_close_fn data s : _close (close data s) = _close s.
Proof. unfold close. simpl. destruct (_blockPlayerInput s); reflexivity. Qed.

Lemma step_abandoned s r q : abandoned q s → abandoned q (step s r).
Proof.
  intros [Hq Hc]. destruct r as [data wa b|data]; cbn [step]; split.
  - by apply open_earlier.
  - rewrite open_close_fn. destruct wa; [|exact Hc].
    apply lookup_lt_Some in Hq. intros [= Heq]. lia.
  - rewrite close_promises. destruct (_close s) as [|p]; [exact Hq|].
    rewrite settle_other; [exact Hq|]. intros ->. by apply Hc.
  - by rewrite close_close_fn.
Qed.

Lemma run_abandoned rs : ∀ s q, abandoned q s → abandoned q (run rs s).
Proof.
  induction rs as [|r rs IH]; intros s q Hq; simpl; [exact Hq|].
  apply IH. by apply step_abandoned.
Qed.

Lemma close_trace data s :
  trace (close data s)
  = trace s ++ [Emit "gui.exit" (ExitPayload (id s)); Called (_close s) data].
Proof.
  unfold close. simpl. destruct (_blockPlayerInput s); simpl; by rewrite <- app_assoc.
Qed.

Lemma open_id data waitingAction blockPlayerInput s :
  id (snd (open data waitingAction blockPlayerInput s)) = id s.
Proof. unfold open. simpl. destruct waitingAction, blockPlayerInput; reflexivity. Qed.

End GuiFacts.

Section GuiSession.

Import Gui.

(** C8. [open] with [waitingAction = true] returns a promise that is
    pending, and that stays pending whatever further calls of [open] are
    made. [close] then emits ['gui.exit'], sets [canMove] back to 1 when
    the last [open] blocked the input, and calls the resolver once: the
    promise is fulfilled with the data given to [close], and keeps that
    value whatever is called afterwards. In the trace, ['gui.open'] comes
    before any call of the resolver of the promise that [open] returns, and
    ['gui.exit'] comes before the call of the pending resolver. *)
Theorem gui_suspension (s : State) (data : value) (blockPlayerInput : bool) :
  let p := fst (open data true blockPlayerInput s) in
  let s1 := snd (open data true blockPlayerInput s) in
  (∀ waitingAction b,
      fst (open data waitingAction b s) = p
      ∧ trace (snd (open data waitingAction b s))
        = trace s ++ Emit "gui.open" (OpenPayload (id s) data)
                  :: (if waitingAction then [] else [Called (Resolve p) VUndefined]))
  ∧ promises s1 !! p = Some Pending
  ∧ _blockPlayerInput s1 = blockPlayerInput
  ∧ (∀ rs, forallb isOpen rs = true → promises (run rs s1) !! p = Some Pending)
  ∧ (∀ s' d, canMove (close d s') = if _blockPlayerInput s' then 1 else canMove s')
  ∧ ∀ resultData,
      let s2 := close resultData s1 in
      trace s2
      = trace s1 ++ [Emit "gui.exit" (ExitPayload (id s)); Called (Resolve p) resultData]
      ∧ promises s2 !! p = Some (Fulfilled resultData)
      ∧ canMove s2 = (if blockPlayerInput then 1 else canMove s)
      ∧ ∀ rs, promises (run rs s2) !! p = Some (Fulfilled resultData).
Proof.
  intros p s1.
  assert (promises s1 !! p = Some Pending) as Hp.
  { subst s1 p. rewrite open_promises, open_promise.
    by rewrite lookup_app_r, Nat.sub_diag by lia. }
  assert (_close s1 = Resolve p) as Hc by (subst s1 p; by rewrite open_close_fn).
  split; [|split; [exact Hp|split; [|split; [|split]]]].
  - intros wa b. split; [reflexivity|].
    unfold open. simpl. destruct wa, b; simpl; by rewrite <- ?app_assoc.
  - subst s1. unfold open. simpl. by destruct blockPlayerInput.
  - intros rs Hrs. by apply run_opens_pending.
  - intros s' d. unfold close. simpl. by destruct (_blockPlayerInput s').
  - intros resultData s2.
    assert (promises s2 !! p = Some (Fulfilled resultData)) as Hf.
    { subst s2. rewrite close_promises, Hc. by apply settle_pending. }
    split; [|split; [exact Hf|split]].
    + subst s2. rewrite close_trace, Hc. subst s1. by rewrite open_id.
    + subst s2 s1. unfold close, open. simpl. by destruct blockPlayerInput.
    + intros rs. by apply run_fulfilled.
Qed.

Lemma gui_suspension_witness :
  promises (close (VStr "yes") (snd (open (VStr "menu") true true (new "choice" 1))))
    !! 0%nat = Some (Fulfilled (VStr "yes"))
  ∧ canMove (close (VStr "yes") (snd (open (VStr "menu") true true (new "choice" 1)))) = 1.
Proof.
  destruct (gui_suspension (new "choice" 1) (VStr "menu") true)
    as (_ & _ & _ & _ & _ & Hclose).
  destruct (Hclose (VStr "yes")) as (_ & Hf & Hm & _).
  split; [exact Hf|exact Hm].
Defined.

(** C9. The instance holds one resolver. When a promise [q] is pending and
    [open] is called with [waitingAction = true], the resolver held
    afterwards is that of the new promise [p]; [close] then fulfils [p]
    and leaves [q] pending, and [q] stays pending whatever is called
    afterwards. [open], [close] and [run] are total: nothing is raised. *)
Theorem gui_last_open_wins (s : State) (q : nat) (data : value)
    (blockPlayerInput : bool) :
  promises s !! q = Some Pending →
  let p := fst (open data true blockPlayerInput s) in
  let s1 := snd (open data true blockPlayerInput s) in
  p ≠ q
  ∧ _close s1 = Resolve p
  ∧ (∀ resultData,
       promises (close resultData s1) !! p = Some (Fulfilled resultData)
       ∧ promises (close resultData s1) !! q = Some Pending)
  ∧ ∀ rs, promises (run rs s1) !! q = Some Pending.
Proof.
  intros Hq p s1.
  assert (p ≠ q) as Hpq
    by (subst p; rewrite open_promise; apply lookup_lt_Some in Hq; lia).
  assert (_close s1 = Resolve p) as Hc by (subst s1 p; by rewrite open_close_fn).
  assert (abandoned q s1) as Hab.
  { split; [subst s1; by apply open_earlier|]. rewrite Hc. congruence. }
  split; [exact Hpq|split; [exact Hc|split]].
  - intros resultData. split.
    + rewrite close_promises, Hc. apply settle_pending.
      subst s1 p. rewrite open_promises, open_promise.
      by rewrite lookup_app_r, Nat.sub_diag by lia.
    + apply (step_abandoned s1 (Close resultData) q Hab).
  - intros rs. apply (run_abandoned rs s1 q Hab).
Qed.

Lemma gui_last_open_wins_witness :
  promises (run [Close (VStr "yes"); Close (VStr "no")]
              (snd (open (VStr "second") true false
                      (snd (open (VStr "first") true false (new "choice" 1))))))
    !! 0%nat = Some Pending.
Proof.
  refine (proj2 (proj2 (proj2
    (gui_last_open_wins (snd (open (VStr "first") true false (new "choice" 1)))
       0%nat (VStr "second") false _))) _).
  reflexivity.
Defined.

End GuiSession.

(** * Further properties of the code *)

(** ** Tile indexing *)

Lemma div_in_range (a b n : Z) : 0 < b → 0 <= a < n * b → 0 <= a / b < n.
Proof.
  intros Hb Ha. split.
  - apply Z.div_pos; lia.
  - apply Z.div_lt_upper_bound; lia.
Qed.



(** X2. On a safe map with positive tile sizes, two positions inside the map
    have the same tile index exactly when they lie in the same tile column
    and the same tile row. *)
Theorem getTileIndex_same_tile (this : RpgCommonMap) (x y x' y' : Z) :
  0 < tileWidth this →
  0 < tileHeight this →
  safeMap this →
  0 <= x < widthPx this →
  0 <= y < heightPx this →
  0 <= x' < widthPx this →
  0 <= y' < heightPx this →
  getTileIndex this x y None = getTileIndex this x' y' None
  ↔ x / tileWidth this = x' / tileWidth this
    ∧ y / tileHeight this = y' / tileHeight this.
Proof.
  unfold widthPx, heightPx, getTileIndex. simpl. intros Hw Hh _ Hx _ Hx' _.
  rewrite !Z.sub_0_r.
  pose proof (div_in_range x (tileWidth this) (width this) Hw Hx).
  pose proof (div_in_range x' (tileWidth this) (width this) Hw Hx').
  split; [|intros [-> ->]; reflexivity].
  intros Heq.
  assert (y / tileHeight this = y' / tileHeight this) as Hrow by nia.
  split; [|exact Hrow]. rewrite Hrow in Heq. lia.
Qed.

Lemma getTileIndex_same_tile_witness :
  getTileIndex gridMap 33 17 None = getTileIndex gridMap 63 31 None
  ↔ 33 / tileWidth gridMap = 63 / tileWidth gridMap
    ∧ 17 / tileHeight gridMap = 31 / tileHeight gridMap.
Proof.
  apply (getTileIndex_same_tile gridMap 33 17 63 31);
    repeat split; vm_compute; congruence.
Defined.

(** X3. On a safe map with positive tile sizes, and from a position inside
    the map: moving by [i] tiles to the right and [j] tiles down to a
    position that is inside the map too adds [j * width + i] to the tile
    index; and [x] is not checked against the map width, so the position one
    map width to the right (a safe integer, and not in the last row) has the
    index of the position one tile below. *)
Theorem getTileIndex_shift (this : RpgCommonMap) (x y i j : Z) :
  0 < tileWidth this →
  0 < tileHeight this →
  safeMap this →
  0 <= x < widthPx this →
  0 <= y < heightPx this →
  (0 <= x + i * tileWidth this < widthPx this →
   0 <= y + j * tileHeight this < heightPx this →
   getTileIndex this (x + i * tileWidth this) (y + j * tileHeight this) None
   = getTileIndex this x y None + j * width this + i)
  ∧ (x + widthPx this <= MAX_SAFE_INTEGER →
     y + tileHeight this < heightPx this →
     getTileIndex this (x + widthPx this) y None
     = getTileIndex this x (y + tileHeight this) None).
Proof.
  unfold widthPx, heightPx, getTileIndex. simpl. intros Hw Hh _ _ _.
  rewrite !Z.sub_0_r. split; intros _ _.
  - rewrite !Z.div_add by lia. lia.
  - rewrite Z.div_add by lia.
    replace (y + tileHeight this) with (y + 1 * tileHeight this) by lia.
    rewrite Z.div_add by lia. lia.
Qed.

Lemma getTileIndex_shift_witness :
  getTileIndex gridMap (5 + 2 * tileWidth gridMap) (7 + 3 * tileHeight gridMap) None
  = getTileIndex gridMap 5 7 None + 3 * width gridMap + 2
  ∧ getTileIndex gridMap (5 + widthPx gridMap) 7 None
    = getTileIndex gridMap 5 (7 + tileHeight gridMap) None.
Proof.
  assert (0 < tileWidth gridMap) as Hw by (vm_compute; congruence).
  assert (0 < tileHeight gridMap) as Hh by (vm_compute; congruence).
  assert (safeMap gridMap) as Hsafe by (repeat split; vm_compute; congruence).
  assert (0 <= 5 < widthPx gridMap) as Hx by (split; vm_compute; congruence).
  assert (0 <= 7 < heightPx gridMap) as Hy by (split; vm_compute; congruence).
  destruct (getTileIndex_shift gridMap 5 7 2 3 Hw Hh Hsafe Hx Hy) as [Hshift Hwrap].
  split.
  - apply Hshift; split; vm_compute; congruence.
  - apply Hwrap; vm_compute; congruence.
Defined.

(** X4. On a safe map with positive tile sizes, the origin returned for a
    position inside the map is the top left corner of the tile that contains
    it: each coordinate is a multiple of the tile size, at most the
    coordinate asked for and less than one tile away from it. *)
Theorem getTileOriginPosition_contains (this : RpgCommonMap) (x y : Z) :
  0 < tileWidth this →
  0 < tileHeight this →
  safeMap this →
  0 <= x < widthPx this →
  0 <= y < heightPx this →
  let o := getTileOriginPosition this x y in
  (pt_x o <= x < pt_x o + tileWidth this
   ∧ pt_y o <= y < pt_y o + tileHeight this)
  ∧ pt_x o mod tileWidth this = 0
  ∧ pt_y o mod tileHeight this = 0.
Proof.
  intros Hw Hh _ _ _ o. subst o. unfold getTileOriginPosition. simpl.
  pose proof (Z.mul_div_le x (tileWidth this) Hw).
  pose proof (Z.mul_succ_div_gt x (tileWidth this) Hw).
  pose proof (Z.mul_div_le y (tileHeight this) Hh).
  pose proof (Z.mul_succ_div_gt y (tileHeight this) Hh).
  rewrite !Z.mod_mul by lia. repeat split; lia.
Qed.

Lemma getTileOriginPosition_contains_witness :
  let o := getTileOriginPosition gridMap 35 12 in
  (pt_x o <= 35 < pt_x o + tileWidth gridMap
   ∧ pt_y o <= 12 < pt_y o + tileHeight gridMap)
  ∧ pt_x o mod tileWidth gridMap = 0
  ∧ pt_y o mod tileHeight gridMap = 0.
Proof.
  apply (getTileOriginPosition_contains gridMap 35 12);
    repeat split; vm_compute; congruence.
Defined.

(** X5. On a safe map with positive tile sizes, the origin of the origin of
    a position inside the map is that origin. *)
Theorem getTileOriginPosition_idempotent (this : RpgCommonMap) (x y : Z) :
  0 < tileWidth this →
  0 < tileHeight this →
  safeMap this →
  0 <= x < widthPx this →
  0 <= y < heightPx this →
  let o := getTileOriginPosition this x y in
  getTileOriginPosition this (pt_x o) (pt_y o) = o.
Proof.
  intros Hw Hh _ _ _ o. subst o. unfold getTileOriginPosition. simpl.
  rewrite !Z.div_mul by lia. reflexivity.
Qed.

Lemma getTileOriginPosition_idempotent_witness :
  let o := getTileOriginPosition gridMap 35 12 in
  getTileOriginPosition gridMap (pt_x o) (pt_y o) = o.
Proof.
  apply (getTileOriginPosition_idempotent gridMap 35 12);
    repeat split; vm_compute; congruence.
Defined.

(** ** Tile lookup *)

(** X6. On a safe map with positive tile sizes, and with a z range that
    starts at 0, the lookup by position gives the same result at a position
    inside the map and at the origin of its tile, whatever the overlap test
    is. *)
Theorem getTileByPosition_origin (inter : Z * Z → Z * Z → bool)
    (this : RpgCommonMap) (x y hi : Z) :
  0 < tileWidth this →
  0 < tileHeight this →
  safeMap this →
  0 <= x < widthPx this →
  0 <= y < heightPx this →
  let o := getTileOriginPosition this x y in
  getTileByPosition inter this (pt_x o) (pt_y o) (0, hi)
  = getTileByPosition inter this x y (0, hi).
Proof.
  intros Hw Hh _ _ _ o. subst o.
  unfold getTileByPosition, getTileIndex, getTileOriginPosition. simpl.
  rewrite !Z.sub_0_r, !Z.div_mul by lia. reflexivity.
Qed.

Lemma getTileByPosition_origin_witness :
  let this := oneTileMap [groundLayer; bridgeLayer] in
  let o := getTileOriginPosition this 20 9 in
  getTileByPosition intersection this (pt_x o) (pt_y o) (0, 40)
  = getTileByPosition intersection this 20 9 (0, 40).
Proof.
  apply (getTileByPosition_origin intersection (oneTileMap [groundLayer; bridgeLayer])
           20 9 40); repeat split; vm_compute; congruence.
Defined.

Lemma array_get_out_of_range {A : Type} (a : list A) (i : Z) :
  i < 0 ∨ Z.of_nat (length a) <= i → array_get a i = None.
Proof.
  intros Hi. unfold array_get. destruct (Z.ltb_spec i 0) as [_|Hge]; [reflexivity|].
  apply lookup_ge_None. lia.
Qed.

Lemma cellsAt_out_of_range (this : RpgCommonMap) (tileIndex : Z) :
  tileIndex < 0
  ∨ Forall (λ layer, Z.of_nat (length (l_tiles layer)) <= tileIndex) (layers this) →
  cellsAt this tileIndex = [].
Proof.
  intros Hout. unfold cellsAt.
  induction (layers this) as [|layer ls IH]; [reflexivity|]. simpl.
  rewrite array_get_out_of_range.
  - simpl. destruct (String.eqb (l_type layer) "tile"); simpl; apply IH;
      (destruct Hout as [Hneg|Hall]; [by left|right; by inversion Hall]).
  - destruct Hout as [Hneg|Hall]; [by left|right; by inversion Hall].
Qed.

(** X7. A tile index that is negative, or past the end of the cell array of
    every layer, is answered with the solid default: no tiles, collision,
    no overlay, no object groups. Nothing is raised. *)
Theorem getTileByIndex_out_of_range (inter : Z * Z → Z * Z → bool)
    (this : RpgCommonMap) (tileIndex : Z) (zRange : Z * Z) :
  tileIndex < 0
  ∨ Forall (λ layer, Z.of_nat (length (l_tiles layer)) <= tileIndex) (layers this) →
  getTileByIndex inter this tileIndex zRange
  = {| tiles := []; hasCollision := Some true; isClimbable := None;
       isOverlay := Some false; objectGroups := [] |}.
Proof.
  intros Hout. rewrite getTileByIndex_includedCells. unfold includedCells.
  rewrite (cellsAt_out_of_range this tileIndex Hout). reflexivity.
Qed.

Lemma getTileByIndex_out_of_range_witness :
  getTileByIndex intersection (oneTileMap [groundLayer; bridgeLayer]) 1 (0, 32)
  = {| tiles := []; hasCollision := Some true; isClimbable := None;
       isOverlay := Some false; objectGroups := [] |}.
Proof.
  apply (getTileByIndex_out_of_range intersection
           (oneTileMap [groundLayer; bridgeLayer]) 1 (0, 32)).
  right. repeat constructor; vm_compute; congruence.
Defined.

Lemma filter_all_In {A : Type} (f : A → bool) (l : list A) :
  (∀ a, a ∈ l → f a = true) → List.filter f l = l.
Proof.
  intros Hall. apply filter_all. by apply Forall_forall.
Qed.

(** X8. When neither the layer nor the cell declares a depth for any cell at
    the index, the lookup does not depend on the z range or on the overlap
    test: it keeps every cell present at the index, and the last one in layer
    order decides the attributes. *)
Theorem getTileByIndex_without_depth (inter inter' : Z * Z → Z * Z → bool)
    (this : RpgCommonMap) (tileIndex : Z) (zRange zRange' : Z * Z) :
  (∀ layer cell, (layer, cell) ∈ cellsAt this tileIndex →
                 l_z layer = None ∧ tp_z (t_properties cell) = None) →
  tiles (getTileByIndex inter this tileIndex zRange) = snd <$> cellsAt this tileIndex
  ∧ getTileByIndex inter this tileIndex zRange
    = getTileByIndex inter' this tileIndex zRange'.
Proof.
  intros Hnone.
  assert (∀ i q, includedCells i this tileIndex q = cellsAt this tileIndex) as Hall.
  { intros i q. unfold includedCells. apply filter_all_In.
    intros [layer cell] Hin. destruct (Hnone layer cell Hin) as [Hl Hc].
    unfold included, depth. simpl. by rewrite Hl, Hc. }
  rewrite !getTileByIndex_includedCells, !Hall. split; [|reflexivity].
  unfold tileInfoOf. destruct (last _); reflexivity.
Qed.

Lemma getTileByIndex_without_depth_witness :
  let this := oneTileMap [ {| l_type := "tile"; l_z := None;
                              l_tiles := [Some groundCell]; l_objects := [] |} ] in
  tiles (getTileByIndex intersection this 0 (0, 0)) = snd <$> cellsAt this 0
  ∧ getTileByIndex intersection this 0 (0, 0)
    = getTileByIndex (λ _ _, false) this 0 (500, 600).
Proof.
  apply (getTileByIndex_without_depth intersection (λ _ _, false)
           (oneTileMap [ {| l_type := "tile"; l_z := None;
                            l_tiles := [Some groundCell]; l_objects := [] |} ])
           0 (0, 0) (500, 600)).
  intros layer cell Hin. vm_compute in Hin.
  apply list_elem_of_singleton in Hin. by simplify_eq.
Defined.

Lemma filter_sublist {A : Type} (f : A → bool) (l : list A) :
  sublist (List.filter f l) l.
Proof.
  induction l as [|a l IH]; simpl; [constructor|].
  destruct (f a); by constructor.
Qed.

Lemma cellsAt_length (this : RpgCommonMap) (tileIndex : Z) :
  (length (cellsAt this tileIndex) ≤ length (layers this))%nat.
Proof.
  unfold cellsAt. induction (layers this) as [|layer ls IH]; [reflexivity|].
  cbn [omap list_omap length].
  destruct (String.eqb (l_type layer) "tile");
    [destruct (mjoin (array_get (l_tiles layer) tileIndex))|];
    cbn [fmap option_fmap option_map length]; lia.
Qed.

(** X9. The tiles that a lookup returns are cells present at the index,
    in layer order, at most one for each layer: the lookup drops cells and
    never adds or reorders any. *)
Theorem getTileByIndex_tiles_sublist (inter : Z * Z → Z * Z → bool)
    (this : RpgCommonMap) (tileIndex : Z) (zRange : Z * Z) :
  sublist (tiles (getTileByIndex inter this tileIndex zRange))
          (snd <$> cellsAt this tileIndex)
  ∧ (length (tiles (getTileByIndex inter this tileIndex zRange))
     ≤ length (layers this))%nat.
Proof.
  assert (tiles (getTileByIndex inter this tileIndex zRange)
          = snd <$> includedCells inter this tileIndex zRange) as ->.
  { rewrite getTileByIndex_includedCells. unfold tileInfoOf.
    destruct (last _); reflexivity. }
  pose proof (filter_sublist (included inter this zRange) (cellsAt this tileIndex))
    as Hsub.
  split.
  - by apply fmap_sublist.
  - rewrite length_fmap. apply sublist_length in Hsub.
    pose proof (cellsAt_length this tileIndex). unfold includedCells. lia.
Qed.

Lemma createShape_this generateUID obj w shape w' :
  createShape generateUID obj w = Some (shape, w') →
  ∃ o, heap w !! obj = Some o
       ∧ shape = createdShape (nextShape w) (nameFor generateUID (uidCalls w) o) o
       ∧ this w' = pushShape (this w) shape
       ∧ heap w' = <[obj := createdObject (sh_name shape) o]> (heap w)
       ∧ nextShape w' = S (nextShape w)
       ∧ uidCalls w' = callsAfter (uidCalls w) o.
Proof.
  intros Hc. destruct (heap w !! obj) as [o|] eqn:Ho.
  - rewrite (createShape_spec generateUID obj w o Ho) in Hc.
    injection Hc as <- <-. exists o. repeat split.
  - unfold createShape, bind, readObj in Hc. by rewrite Ho in Hc.
Qed.


(** ** The shape registry *)

Lemma find_filter_weaker {A : Type} (f g : A → bool) (l : list A) :
  (∀ a, f a = true → g a = true) →
  List.find f (List.filter g l) = List.find f l.
Proof.
  intros Hfg. induction l as [|a l IH]; simpl; [reflexivity|].
  destruct (g a) eqn:Hg; simpl.
  - by rewrite IH.
  - destruct (f a) eqn:Hf; [|exact IH]. rewrite (Hfg a Hf) in Hg. discriminate.
Qed.

Lemma filter_filter_weaker {A : Type} (f g : A → bool) (l : list A) :
  (∀ a, a ∈ l → f a = true → g a = true) →
  List.filter f (List.filter g l) = List.filter f l.
Proof.
  induction l as [|a l IH]; intros Hfg; simpl; [reflexivity|].
  assert (List.filter f (List.filter g l) = List.filter f l) as IH'
    by (apply IH; intros b Hb; apply Hfg; by right).
  destruct (g a) eqn:Hg; simpl.
  - by rewrite IH'.
  - destruct (f a) eqn:Hf; [|exact IH'].
    rewrite (Hfg a ltac:(left) Hf) in Hg. discriminate.
Qed.

(** X11. [removeShape] of one name does not change what [getShape] finds
    for any other name. *)
Theorem removeShape_other_name (this : RpgCommonMap) (name name' : string) :
  name' ≠ name →
  getShape (removeShape this name) name' = getShape this name'.
Proof.
  intros Hne. unfold getShape, removeShape. simpl.
  apply find_filter_weaker. intros shape Hs.
  apply String.eqb_eq in Hs. apply negb_true_iff, String.eqb_neq. congruence.
Qed.

Lemma removeShape_other_name_witness :
  getShape (removeShape spawnMap "door") "spawn" = getShape spawnMap "spawn".
Proof.
  apply (removeShape_other_name spawnMap "door" "spawn"). discriminate.
Defined.

Lemma filter_comm {A : Type} (f g : A → bool) (l : list A) :
  List.filter f (List.filter g l) = List.filter g (List.filter f l).
Proof.
  induction l as [|a l IH]; simpl; [reflexivity|].
  destruct (f a) eqn:Hf, (g a) eqn:Hg; simpl; rewrite ?Hf, ?Hg, IH; reflexivity.
Qed.

(** X12. Removals commute, and removing a name a second time changes
    nothing. *)
Theorem removeShape_commutes (this : RpgCommonMap) (a b : string) :
  removeShape (removeShape this a) b = removeShape (removeShape this b) a
  ∧ removeShape (removeShape this a) a = removeShape this a.
Proof.
  unfold removeShape. simpl. split; f_equal.
  - apply filter_comm.
  - apply filter_all_In. intros shape Hin.
    apply list_elem_of_In, filter_In in Hin. tauto.
Qed.

(** X13. [getShape] returns the first registered shape with the name, in
    registration order, and [undefined] exactly when no registered shape has
    the name. *)
Theorem getShape_first_match (this : RpgCommonMap) (name : string) :
  match getShape this name with
  | Some shape =>
      ∃ i : nat,
        getShapes this !! i = Some shape ∧ sh_name shape = name
        ∧ ∀ (j : nat) other, (j < i)%nat → getShapes this !! j = Some other →
                             sh_name other ≠ name
  | None => name ∉ (sh_name <$> getShapes this)
  end.
Proof.
  unfold getShape, getShapes.
  induction (shapes this) as [|s l IH]; simpl; [apply not_elem_of_nil|].
  destruct (String.eqb_spec (sh_name s) name) as [Heq|Hne].
  - exists 0%nat. repeat split; [exact Heq|]. intros j other Hj. lia.
  - destruct (List.find _ l) as [shape|].
    + destruct IH as (i & Hi & Hn & Hfirst). exists (S i). repeat split; try done.
      intros [|j] other Hj Hother; simpl in Hother.
      * by simplify_eq.
      * eapply Hfirst; [|exact Hother]. lia.
    + rewrite not_elem_of_cons. split; [congruence|exact IH].
Qed.

Lemma find_app_Some {A : Type} (f : A → bool) (l k : list A) (a : A) :
  List.find f l = Some a → List.find f (l ++ k) = Some a.
Proof.
  induction l as [|b l IH]; simpl; [discriminate|].
  destruct (f b); [done|exact IH].
Qed.

(** X14. [createShape] never changes what [getShape] finds for a name that
    is registered already: a shape created under a registered name is
    stored, but the earlier shape keeps being the one found. *)
Theorem createShape_keeps_found (generateUID : nat → string) (w w' : World)
    (obj : loc) (shape found : RpgShape) (name : string) :
  getShape (this w) name = Some found →
  createShape generateUID obj w = Some (shape, w') →
  getShape (this w') name = Some found
  ∧ getShapes (this w') = getShapes (this w) ++ [shape].
Proof.
  intros Hfound Hc. apply createShape_this in Hc as (o & _ & _ & -> & _).
  split; [|reflexivity]. unfold getShape, pushShape. simpl.
  by apply find_app_Some.
Qed.

Lemma createShape_keeps_found_witness :
  let w := {| this := spawnMap;
              heap := {[ 0%nat := mkHitObject 1 2 3 4 (Some "spawn") None ]};
              nextShape := 3; uidCalls := 0 |} in
  let r := createdShape 3 "spawn" (mkHitObject 1 2 3 4 (Some "spawn") None) in
  let w' := {| this := pushShape spawnMap r;
               heap := <[ 0%nat := createdObject "spawn"
                                     (mkHitObject 1 2 3 4 (Some "spawn") None) ]>
                         (heap w);
               nextShape := 4; uidCalls := 0 |} in
  getShape (this w') "spawn"
  = Some {| sh_id := 1; sh_name := "spawn"; hitbox := mkHitbox 40 50 8 8;
            properties := {| p_z := Some 2; p_other := ∅ |} |}
  ∧ getShapes (this w') = getShapes (this w) ++ [r].
Proof.
  intros w r w'.
  apply (createShape_keeps_found sampleUID w w' 0%nat r _ "spawn").
  - reflexivity.
  - apply (createShape_spec sampleUID 0%nat w
             (mkHitObject 1 2 3 4 (Some "spawn") None)). reflexivity.
Defined.

Lemma truthyName_nonempty (name : string) :
  name ≠ "" → truthyName (Some name) = Some name.
Proof.
  intros Hne. unfold truthyName.
  destruct (String.eqb_spec name ""); [contradiction|reflexivity].
Qed.

Lemma createdObject_again (name : string) (o : HitObject) :
  createdObject name (createdObject name o) = createdObject name o.
Proof. reflexivity. Qed.

(** X15. [createShape] called a second time on the same raw object, whose
    name after the first call is not the empty string, makes no call of
    [generateUID] and leaves the raw object as it is: it registers a second
    shape, a different object with the same name, hitbox and properties as
    the first. *)
Theorem createShape_same_object_twice (generateUID : nat → string)
    (w w1 : World) (obj : loc) (first : RpgShape) :
  createShape generateUID obj w = Some (first, w1) →
  sh_name first ≠ "" →
  ∃ second w2,
    createShape generateUID obj w1 = Some (second, w2)
    ∧ second = {| sh_id := S (sh_id first); sh_name := sh_name first;
                  hitbox := hitbox first; properties := properties first |}
    ∧ getShapes (this w2) = getShapes (this w) ++ [first; second]
    ∧ heap w2 = heap w1
    ∧ uidCalls w2 = uidCalls w1.
Proof.
  intros Hc Hne.
  apply createShape_this in Hc as (o & Ho & Hfirst & Hthis & Hheap & Hnext & Hcalls).
  set (name := sh_name first) in *.
  assert (heap w1 !! obj = Some (createdObject name o)) as Ho1
    by (rewrite Hheap; apply lookup_insert_eq).
  pose proof (createShape_spec generateUID obj w1 _ Ho1) as Hc2. cbv zeta in Hc2.
  assert (nameFor generateUID (uidCalls w1) (createdObject name o) = name) as Hname
    by (unfold nameFor; cbn [createdObject ho_name]; by rewrite truthyName_nonempty).
  assert (callsAfter (uidCalls w1) (createdObject name o) = uidCalls w1) as Hsame
    by (unfold callsAfter; cbn [createdObject ho_name]; by rewrite truthyName_nonempty).
  rewrite Hname, Hsame, createdObject_again in Hc2.
  eexists _, _. split; [exact Hc2|]. cbn [this heap uidCalls]. repeat split.
  - subst first. unfold createdShape. cbn. by rewrite Hnext.
  - rewrite Hthis. unfold getShapes, pushShape. cbn [shapes]. by rewrite <- app_assoc.
  - rewrite Hheap. apply insert_insert_eq.
Qed.

Lemma createShape_same_object_twice_witness :
  let w := {| this := newMap;
              heap := {[ 0%nat := mkHitObject 10 10 5 5 None None ]};
              nextShape := 0; uidCalls := 0 |} in
  let first := createdShape 0 "uid-" (mkHitObject 10 10 5 5 None None) in
  let w1 := {| this := pushShape newMap first;
               heap := <[ 0%nat := createdObject "uid-"
                                     (mkHitObject 10 10 5 5 None None) ]> (heap w);
               nextShape := 1; uidCalls := 1 |} in
  ∃ second w2,
    createShape sampleUID 0%nat w1 = Some (second, w2)
    ∧ second = {| sh_id := S (sh_id first); sh_name := sh_name first;
                  hitbox := hitbox first; properties := properties first |}
    ∧ getShapes (this w2) = getShapes (this w) ++ [first; second]
    ∧ heap w2 = heap w1
    ∧ uidCalls w2 = uidCalls w1.
Proof.
  intros w first w1.
  apply (createShape_same_object_twice sampleUID w w1 0%nat first).
  - apply (createShape_spec sampleUID 0%nat w (mkHitObject 10 10 5 5 None None)).
    reflexivity.
  - discriminate.
Defined.

Lemma objectRefs_no_object_layer (ls : list Layer) :
  Forall (λ layer, l_type layer ≠ "object") ls → objectRefs ls = [].
Proof.
  unfold objectRefs. induction 1 as [|layer ls Hl _ IH]; simpl; [reflexivity|].
  apply String.eqb_neq in Hl. by rewrite Hl.
Qed.

(** X16. [load] of a document without a layer of type ["object"] (an empty
    list of layers too) replaces the geometry and the layers and does nothing
    else: the registry, the raw objects and the identifiers generated so far
    stay as they are, whether or not the references of the other layers are
    live. *)
Theorem load_without_object_layer (generateUID : nat → string) (w : World)
    (d : MapData) :
  Forall (λ layer, l_type layer ≠ "object") (d_layers d) →
  load generateUID d w
  = Some (tt, {| this := {| data := Some d; width := d_width d; height := d_height d;
                            tileWidth := d_tileWidth d; tileHeight := d_tileHeight d;
                            layers := d_layers d; shapes := shapes (this w) |};
                 heap := heap w; nextShape := nextShape w; uidCalls := uidCalls w |}).
Proof.
  intros Hno. unfold load, _extractShapes, bind, getThis, setThis. simpl.
  rewrite forOf_layers, (objectRefs_no_object_layer _ Hno). reflexivity.
Qed.

Lemma load_without_object_layer_witness :
  let d := {| d_width := 1; d_height := 1; d_tileWidth := 32; d_tileHeight := 32;
              d_layers := [groundLayer; bridgeLayer] |} in
  load sampleUID d sampleWorld
  = Some (tt, {| this := {| data := Some d; width := 1; height := 1;
                            tileWidth := 32; tileHeight := 32;
                            layers := [groundLayer; bridgeLayer];
                            shapes := shapes (this sampleWorld) |};
                 heap := heap sampleWorld; nextShape := nextShape sampleWorld;
                 uidCalls := uidCalls sampleWorld |}).
Proof.
  intros d. apply (load_without_object_layer sampleUID sampleWorld d).
  repeat constructor; discriminate.
Defined.

(** X17. Removing a name that the predicate rejects does not change the
    position that [getPositionByShape] returns, whatever [random] draws. *)
Theorem getPositionByShape_ignores_rejected (random : Z → Z → Z)
    (this : RpgCommonMap) (filter : RpgShape → bool) (name : string) :
  (∀ shape, shape ∈ shapes this → sh_name shape = name → filter shape = false) →
  getPositionByShape random (removeShape this name) filter
  = getPositionByShape random this filter.
Proof.
  intros Hrej. unfold getPositionByShape, getShapes, removeShape, zTileHeight. simpl.
  rewrite filter_filter_weaker; [reflexivity|].
  intros shape Hin Hf. apply negb_true_iff, String.eqb_neq. intros Hn.
  rewrite (Hrej shape Hin Hn) in Hf. discriminate.
Qed.

Lemma getPositionByShape_ignores_rejected_witness :
  getPositionByShape (λ lo _, lo) (removeShape spawnMap "door") isSpawn
  = getPositionByShape (λ lo _, lo) spawnMap isSpawn.
Proof.
  apply (getPositionByShape_ignores_rejected (λ lo _, lo) spawnMap isSpawn "door").
  intros shape Hin Hn. unfold isSpawn. rewrite Hn. reflexivity.
Defined.

Lemma filter_none {A : Type} (f : A → bool) (l : list A) :
  (∀ a, a ∈ l → f a = false) → List.filter f l = [].
Proof.
  induction l as [|a l IH]; intros Hall; simpl; [reflexivity|].
  rewrite (Hall a ltac:(left)). apply IH. intros b Hb. apply Hall. by right.
Qed.

(** X18. When every shape that the predicate accepts has the same name,
    [getPositionByShape] returns [null] after [removeShape] of that name,
    without a call of [random] mattering. *)
Theorem getPositionByShape_after_remove (random : Z → Z → Z)
    (this : RpgCommonMap) (filter : RpgShape → bool) (name : string) :
  (∀ shape, shape ∈ shapes this → filter shape = true → sh_name shape = name) →
  getPositionByShape random (removeShape this name) filter = Some None.
Proof.
  intros Hacc. unfold getPositionByShape, getShapes, removeShape. simpl.
  rewrite filter_none; [reflexivity|].
  intros shape Hin. apply list_elem_of_In, filter_In in Hin as [Hin Hkeep].
  apply negb_true_iff, String.eqb_neq in Hkeep.
  destruct (filter shape) eqn:Hf; [|reflexivity].
  destruct Hkeep. apply Hacc; [by apply list_elem_of_In|exact Hf].
Qed.

Lemma getPositionByShape_after_remove_witness :
  getPositionByShape (λ lo _, lo) (removeShape spawnMap "spawn") isSpawn = Some None.
Proof.
  apply (getPositionByShape_after_remove (λ lo _, lo) spawnMap isSpawn "spawn").
  intros shape _ Hf. by apply String.eqb_eq in Hf.
Defined.

(** ** Loading twice *)

Lemma nameFor_nonempty generateUID calls o :
  (∀ k, generateUID k ≠ "") → nameFor generateUID calls o ≠ "".
Proof.
  intros Hg. unfold nameFor, truthyName.
  destruct (ho_name o) as [s|]; [|apply Hg].
  destruct (String.eqb_spec s ""); [apply Hg|assumption].
Qed.

(** The shapes made again from objects that [createShape] has named. *)
Lemma createdShapes_again generateUID (os : list HitObject) :
  (∀ k, generateUID k ≠ "") →
  ∀ id calls id' calls',
    let new := createdShapes generateUID id calls os in
    let again := createdShapes generateUID id' calls'
                   (zip_with (λ s o, createdObject (sh_name s) o) new os) in
    sh_name <$> again = sh_name <$> new ∧ hitbox <$> again = hitbox <$> new.
Proof.
  intros Hg. induction os as [|o os IH]; intros id calls id' calls'; [split; reflexivity|].
  cbn [createdShapes zip_with]. cbn [createdShape sh_name].
  cbn [createdShapes fmap list_fmap].
  assert (nameFor generateUID calls' (createdObject (nameFor generateUID calls o) o)
          = nameFor generateUID calls o) as Hn.
  { unfold nameFor at 1. cbn [createdObject ho_name].
    by rewrite truthyName_nonempty by by apply nameFor_nonempty. }
  assert (callsAfter calls' (createdObject (nameFor generateUID calls o) o) = calls')
    as Hc.
  { unfold callsAfter. cbn [createdObject ho_name].
    by rewrite truthyName_nonempty by by apply nameFor_nonempty. }
  rewrite Hn, Hc.
  destruct (IH (S id) (callsAfter calls o) (S id') calls') as [IHn IHh].
  cbn zeta in IHn, IHh. split.
  - cbn [createdShape sh_name]. f_equal. exact IHn.
  - cbn [createdShape hitbox createdObject ho_x ho_y ho_width ho_height]. f_equal.
    exact IHh.
Qed.

Lemma load_as_loop generateUID (d : MapData) (w : World) :
  load generateUID d w
  = forOf (objectRefs (d_layers d)) (λ obj, createShape generateUID obj ;; ret tt)
      {| this := {| data := Some d; width := d_width d; height := d_height d;
                    tileWidth := d_tileWidth d; tileHeight := d_tileHeight d;
                    layers := d_layers d; shapes := shapes (this w) |};
         heap := heap w; nextShape := nextShape w; uidCalls := uidCalls w |}.
Proof.
  unfold load, _extractShapes, bind, getThis, setThis. simpl.
  apply forOf_layers.
Qed.

(** X19. [load] does not empty the registry. When no generated identifier
    is the empty string, loading the same document a second time into the
    same instance registers every object of the object layers once more,
    under the name and with the hitbox of its first shape: the registry then
    holds each of these shapes twice. *)
Theorem load_twice_duplicates (generateUID : nat → string) (w : World)
    (d : MapData) (os : list HitObject) :
  NoDup (objectRefs (d_layers d)) →
  Forall2 (λ obj o, heap w !! obj = Some o) (objectRefs (d_layers d)) os →
  (∀ k, generateUID k ≠ "") →
  let new := createdShapes generateUID (nextShape w) (uidCalls w) os in
  ∃ w1 w2,
    load generateUID d w = Some (tt, w1)
    ∧ load generateUID d w1 = Some (tt, w2)
    ∧ sh_name <$> shapes (this w2)
      = (sh_name <$> shapes (this w)) ++ (sh_name <$> new) ++ (sh_name <$> new)
    ∧ hitbox <$> shapes (this w2)
      = (hitbox <$> shapes (this w)) ++ (hitbox <$> new) ++ (hitbox <$> new).
Proof.
  intros Hnd Hlive Hg new.
  destruct (forOf_createShape generateUID _ os
              {| this := {| data := Some d; width := d_width d; height := d_height d;
                            tileWidth := d_tileWidth d; tileHeight := d_tileHeight d;
                            layers := d_layers d; shapes := shapes (this w) |};
                 heap := heap w; nextShape := nextShape w; uidCalls := uidCalls w |}
              Hnd Hlive)
    as (w1 & Hrun1 & Hthis1 & _ & Hwritten).
  rewrite <- load_as_loop in Hrun1.
  cbn [nextShape uidCalls this] in Hthis1, Hwritten. fold new in Hthis1, Hwritten.
  rewrite shapes_pushed in Hthis1. cbn in Hthis1.
  set (os1 := zip_with (λ s o, createdObject (sh_name s) o) new os).
  assert (length new = length os) as Hlen by apply createdShapes_length.
  assert (Forall2 (λ obj o1, heap w1 !! obj = Some o1) (objectRefs (d_layers d)) os1)
    as Hlive1.
  { apply Forall2_same_length_lookup_2.
    - unfold os1. rewrite length_zip_with. apply Forall2_length in Hlive. lia.
    - intros i obj o1 Hobj Ho1. unfold os1 in Ho1.
      apply lookup_zip_with_Some in Ho1 as (s & o & -> & Hs & Ho).
      by eapply Hwritten. }
  destruct (forOf_createShape generateUID _ os1
              {| this := {| data := Some d; width := d_width d; height := d_height d;
                            tileWidth := d_tileWidth d; tileHeight := d_tileHeight d;
                            layers := d_layers d; shapes := shapes (this w1) |};
                 heap := heap w1; nextShape := nextShape w1; uidCalls := uidCalls w1 |}
              Hnd Hlive1)
    as (w2 & Hrun2 & Hthis2 & _ & _).
  rewrite <- load_as_loop in Hrun2.
  exists w1, w2. split; [exact Hrun1|]. split; [exact Hrun2|].
  rewrite shapes_pushed in Hthis2. cbn in Hthis2.
  rewrite Hthis2, Hthis1. cbn [shapes].
  destruct (createdShapes_again generateUID os Hg (nextShape w) (uidCalls w)
              (nextShape w1) (uidCalls w1)) as [Hn Hh].
  cbn zeta in Hn, Hh. fold new in Hn, Hh. fold os1 in Hn, Hh.
  rewrite !fmap_app, Hn, Hh, <- !app_assoc. split; reflexivity.
Qed.

Lemma sampleUID_nonempty (k : nat) : sampleUID k ≠ "".
Proof. unfold sampleUID. simpl. discriminate. Qed.

Lemma load_twice_duplicates_witness :
  ∃ w1 w2,
    load sampleUID sampleDocument sampleWorld = Some (tt, w1)
    ∧ load sampleUID sampleDocument w1 = Some (tt, w2)
    ∧ sh_name <$> shapes (this w2)
      = ["uid-"; "door"; "uid-i"; "uid-"; "door"; "uid-i"].
Proof.
  destruct (load_twice_duplicates sampleUID sampleWorld sampleDocument sampleObjects)
    as (w1 & w2 & H1 & H2 & Hn & _).
  - apply (bool_decide_unpack _). vm_compute. exact I.
  - repeat constructor.
  - exact sampleUID_nonempty.
  - exists w1, w2. split; [exact H1|]. split; [exact H2|]. rewrite Hn. reflexivity.
Defined.

(** ** The GUI session *)

Section GuiFurther.

Import Gui.

Lemma settle_not_pending p v ps : settle p v ps !! p ≠ Some Pending.
Proof.
  unfold settle. destruct (ps !! p) as [[|u]|] eqn:Hp; try congruence.
  rewrite list_lookup_insert_eq by by eapply lookup_lt_Some. discriminate.
Qed.

Lemma settle_settled p v ps : ps !! p ≠ Some Pending → settle p v ps = ps.
Proof.
  intros Hp. unfold settle. destruct (ps !! p) as [[|u]|]; congruence.
Qed.

(** X20. A second [close] emits ['gui.exit'] and calls the resolver again,
    but changes no promise: the data of the first [close] stays. *)
Theorem close_twice (s : State) (first second : value) :
  promises (close second (close first s)) = promises (close first s)
  ∧ trace (close second (close first s))
    = trace s ++ [Emit "gui.exit" (ExitPayload (id s)); Called (_close s) first;
                  Emit "gui.exit" (ExitPayload (id s)); Called (_close s) second].
Proof.
  split.
  - rewrite (close_promises second), close_close_fn, (close_promises first).
    destruct (_close s) as [|p]; [reflexivity|].
    apply settle_settled, settle_not_pending.
  - rewrite !close_trace, close_close_fn, <- app_assoc.
    replace (id (close first s)) with (id s); [reflexivity|].
    unfold close. simpl. by destruct (_blockPlayerInput s).
Qed.

(** X21. [open] without [waitingAction] returns a promise that is fulfilled
    with [undefined] at once, and keeps the resolver that the instance
    holds: a [close] after it still fulfils the promise of the waiting
    [open] made before. *)
Theorem open_not_waiting_keeps_resolver (s : State) (d1 d2 result : value)
    (b1 b2 : bool) :
  let p := fst (open d1 true b1 s) in
  let s1 := snd (open d1 true b1 s) in
  let p2 := fst (open d2 false b2 s1) in
  let s2 := snd (open d2 false b2 s1) in
  promises s2 !! p2 = Some (Fulfilled VUndefined)
  ∧ promises s2 !! p = Some Pending
  ∧ _close s2 = Resolve p
  ∧ promises (close result s2) !! p = Some (Fulfilled result)
  ∧ promises (close result s2) !! p2 = Some (Fulfilled VUndefined).
Proof.
  intros p s1 p2 s2.
  assert (promises s1 !! p = Some Pending) as Hp.
  { subst s1 p. rewrite open_promises, open_promise.
    by rewrite lookup_app_r, Nat.sub_diag by lia. }
  assert (promises s2 !! p = Some Pending) as Hp' by (subst s2; by apply open_earlier).
  assert (promises s2 !! p2 = Some (Fulfilled VUndefined)) as Hp2.
  { subst s2 p2. rewrite open_promises, open_promise.
    by rewrite lookup_app_r, Nat.sub_diag by lia. }
  assert (_close s2 = Resolve p) as Hc.
  { subst s2 s1 p. by rewrite !open_close_fn. }
  repeat split; try assumption.
  - rewrite close_promises, Hc. by apply settle_pending.
  - rewrite close_promises, Hc. by apply settle_fulfilled.
Qed.

Lemma open_canMove data waitingAction blockPlayerInput s :
  canMove (snd (open data waitingAction blockPlayerInput s))
  = if blockPlayerInput then 0 else canMove s.
Proof. unfold open. simpl. destruct waitingAction, blockPlayerInput; reflexivity. Qed.

Lemma open_block data waitingAction blockPlayerInput s :
  _blockPlayerInput (snd (open data waitingAction blockPlayerInput s))
  = blockPlayerInput.
Proof. unfold open. simpl. destruct waitingAction, blockPlayerInput; reflexivity. Qed.

Lemma close_canMove data s :
  canMove (close data s) = if _blockPlayerInput s then 1 else canMove s.
Proof. unfold close. simpl. by destruct (_blockPlayerInput s). Qed.

(** X22. The lock is remembered in one flag that every [open] overwrites:
    after an [open] that blocks the input and a later [open] that does not,
    [close] leaves [canMove] at 0. *)
Theorem close_after_unblocking_open (s : State) (d1 d2 result : value)
    (w1 w2 : bool) :
  let s1 := snd (open d1 w1 true s) in
  let s2 := snd (open d2 w2 false s1) in
  canMove s1 = 0 ∧ canMove s2 = 0 ∧ canMove (close result s2) = 0.
Proof.
  intros s1 s2. subst s1 s2.
  rewrite close_canMove, open_block, !open_canMove. repeat split.
Qed.

(** X23. [close] changes no promise other than the one whose resolver the
    instance holds. *)
Theorem close_other_promises (s : State) (data : value) (q : nat) :
  _close s ≠ Resolve q →
  promises (close data s) !! q = promises s !! q.
Proof.
  intros Hq. rewrite close_promises. destruct (_close s) as [|p]; [reflexivity|].
  apply settle_other. congruence.
Qed.

Lemma close_other_promises_witness :
  let s := snd (open (VStr "b") true false (snd (open (VStr "a") true false (new "g" 1)))) in
  promises (close (VStr "r") s) !! 0%nat = promises s !! 0%nat.
Proof.
  intros s. apply (close_other_promises s (VStr "r") 0%nat). discriminate.
Defined.

Lemma step_promises_length s r :
  length (promises (step s r))
  = (length (promises s) + if isOpen r then 1 else 0)%nat.
Proof.
  destruct r as [data wa b|data]; cbn [step isOpen].
  - rewrite open_promises. destruct wa; rewrite length_app; reflexivity.
  - rewrite close_promises. destruct (_close s); [|rewrite settle_length]; lia.
Qed.

Lemma step_trace_prefix s r : trace s `prefix_of` trace (step s r).
Proof.
  destruct r as [data wa b|data]; cbn [step].
  - unfold open. simpl. destruct wa, b; simpl; rewrite <- ?app_assoc;
      by apply prefix_app_r.
  - rewrite close_trace. by apply prefix_app_r.
Qed.

(** X24. Over any sequence of calls, the instance makes one promise for
    each [open] and none for a [close], and the trace only grows at its
    end. *)
Theorem run_promises_and_trace (rs : list request) (s : State) :
  length (promises (run rs s))
  = (length (promises s) + length (List.filter isOpen rs))%nat
  ∧ trace s `prefix_of` trace (run rs s).
Proof.
  revert s. induction rs as [|r rs IH]; intros s; simpl.
  - split; [lia|reflexivity].
  - destruct (IH (step s r)) as [Hlen Hpre]. split.
    + rewrite Hlen, step_promises_length. destruct (isOpen r); simpl; lia.
    + etrans; [apply step_trace_prefix|exact Hpre].
Qed.

Lemma run_not_waiting rs : ∀ s,
  forallb (λ r, negb (isWaitingOpen r)) rs = true →
  _close (run rs s) = _close s
  ∧ (Forall (λ st, st ≠ Pending) (promises s) →
     Forall (λ st, st ≠ Pending) (promises (run rs s))).
Proof.
  induction rs as [|r rs IH]; intros s Hrs; simpl in *; [tauto|].
  apply andb_true_iff in Hrs as [Hr Hrs].
  destruct (IH (step s r) Hrs) as [Hc Hall].
  assert (_close (step s r) = _close s) as Hcs.
  { destruct r as [data wa b|data]; cbn [step].
    - rewrite open_close_fn. simpl in Hr. by destruct wa.
    - apply close_close_fn. }
  split; [by rewrite Hc|].
  intros Hs. apply Hall.
  destruct r as [data wa b|data]; cbn [step].
  - rewrite open_promises. simpl in Hr. destruct wa; [discriminate|].
    apply Forall_app. split; [exact Hs|]. by repeat constructor.
  - rewrite close_promises. destruct (_close s) as [|p]; [exact Hs|].
    unfold settle. destruct (promises s !! p) as [[|u]|] eqn:Hp; try exact Hs.
    eapply Forall_lookup_1 in Hs; [|exact Hp]. congruence.
Qed.

(** X25. On an instance that was never opened with [waitingAction], [close]
    finds the initial empty function in [_close]: whatever calls were made,
    no promise is pending and [close] changes none. *)
Theorem close_without_waiting_open (guiId : string) (playerCanMove : Z)
    (rs : list request) (data : value) :
  forallb (λ r, negb (isWaitingOpen r)) rs = true →
  let s := run rs (new guiId playerCanMove) in
  _close s = Nothing
  ∧ Forall (λ st, st ≠ Pending) (promises s)
  ∧ promises (close data s) = promises s.
Proof.
  intros Hrs s. destruct (run_not_waiting rs (new guiId playerCanMove) Hrs) as [Hc Hall].
  fold s in Hc, Hall. simpl in Hc. split; [exact Hc|]. split.
  - apply Hall. constructor.
  - by rewrite close_promises, Hc.
Qed.

Lemma close_without_waiting_open_witness :
  let s := run [Open (VStr "a") false true; Close (VStr "b")] (new "g" 1) in
  _close s = Nothing
  ∧ Forall (λ st, st ≠ Pending) (promises s)
  ∧ promises (close (VStr "c") s) = promises s.
Proof.
  apply (close_without_waiting_open "g" 1
           [Open (VStr "a") false true; Close (VStr "b")] (VStr "c")).
  reflexivity.
Defined.

End GuiFurther.

(** ** The shield animation *)

(** X26. [to()] returns twenty frames: the frame of column [c] and row [r]
    of the sheet of 5 by 4 frames is at position [r * 5 + c], with the time
    [5 * (r * 5 + c)]; every cell of the sheet is shown once, row by row,
    five time units apart. *)
Theorem to_row_major (c r : Z) :
  0 <= c < 5 →
  0 <= r < 4 →
  length to = 20%nat
  ∧ to !! Z.to_nat (r * 5 + c)
    = Some {| time := 5 * (r * 5 + c); frameX := c; frameY := r |}.
Proof.
  intros Hc Hr. split; [reflexivity|].
  assert (c = 0 ∨ c = 1 ∨ c = 2 ∨ c = 3 ∨ c = 4) as Hcs by lia.
  assert (r = 0 ∨ r = 1 ∨ r = 2 ∨ r = 3) as Hrs by lia.
  destruct Hcs as [->|[->|[->|[->| ->]]]];
    destruct Hrs as [->|[->|[->| ->]]]; reflexivity.
Qed.

Lemma to_row_major_witness :
  length to = 20%nat
  ∧ to !! Z.to_nat (2 * 5 + 3) = Some {| time := 5 * (2 * 5 + 3); frameX := 3; frameY := 2 |}.
Proof. apply (to_row_major 3 2); lia. Defined.
